(** * TurfUp backend: match capacity, membership and session logic

    A shallow embedding of the request handlers of [backend.js] (and of
    the variant with the [/auth] endpoints) over an explicit model of
    the relational store described by the schema of the deployment
    guide.  Every [await pool.query(...)] of a handler is one atomic
    statement on the store; a handler is the sequence of its
    statements. *)

From Stdlib Require Import ZArith Lia Ascii String.
From stdpp Require Import base option list sorting gmap strings.

Local Open Scope string_scope.
Local Open Scope list_scope.
Local Open Scope Z_scope.

(** ** JavaScript [parseInt]

    Strings are sequences of UTF-8 bytes.  [parseInt(string)] without a
    radix: skip leading white space, read an optional sign, switch to
    radix 16 after a [0x]/[0X] prefix, then read the longest prefix of
    digits of the radix.  No digit at all is [NaN], here [None]. *)

Module JS.

Definition code (a : ascii) : Z := Z.of_N (N_of_ascii a).

(** White space and line terminators of one, two and three bytes:
    TAB, LF, VT, FF, CR, SP; U+00A0; U+1680, U+2000..U+200A, U+2028,
    U+2029, U+202F, U+205F, U+3000, U+FEFF. *)
Definition is_ws1 (a : ascii) : bool :=
  let c := code a in ((9 <=? c) && (c <=? 13)) || (c =? 32).

Definition is_ws2 (a b : ascii) : bool :=
  (code a =? 194) && (code b =? 160).

Definition is_ws3 (a b c : ascii) : bool :=
  let x := code a in let y := code b in let z := code c in
  ((x =? 225) && (y =? 154) && (z =? 128))
  || ((x =? 226) && (y =? 128) &&
        (((128 <=? z) && (z <=? 138)) || (z =? 168) || (z =? 169) || (z =? 175)))
  || ((x =? 226) && (y =? 129) && (z =? 159))
  || ((x =? 227) && (y =? 128) && (z =? 128))
  || ((x =? 239) && (y =? 187) && (z =? 191)).

Fixpoint trimStart (s : string) : string :=
  match s with
  | EmptyString => s
  | String a r =>
      if is_ws1 a then trimStart r
      else match r with
           | EmptyString => s
           | String b r2 =>
               if is_ws2 a b then trimStart r2
               else match r2 with
                    | EmptyString => s
                    | String c r3 => if is_ws3 a b c then trimStart r3 else s
                    end
           end
  end.

(** The value of a character as a digit, 36 when it is none. *)
Definition digit_value (a : ascii) : Z :=
  let c := code a in
  if (48 <=? c) && (c <=? 57) then c - 48
  else if (97 <=? c) && (c <=? 122) then c - 87
  else if (65 <=? c) && (c <=? 90) then c - 55
  else 36.

Definition is_digit (R : Z) (a : ascii) : bool := digit_value a <? R.

(** The longest prefix of radix-[R] digits, as digit values. *)
Fixpoint take_digits (R : Z) (s : string) : list Z :=
  match s with
  | EmptyString => []
  | String a r => if is_digit R a then digit_value a :: take_digits R r else []
  end.

Definition digits_value (R : Z) (ds : list Z) : Z :=
  fold_left (fun acc d => acc * R + d) ds 0.

Definition strip_sign (s : string) : Z * string :=
  match s with
  | String a r =>
      if code a =? 45 then (-1, r)
      else if code a =? 43 then (1, r)
      else (1, s)
  | EmptyString => (1, s)
  end.

Definition strip_prefix (s : string) : Z * string :=
  match s with
  | String a (String b r) =>
      if (code a =? 48) && ((code b =? 120) || (code b =? 88)) then (16, r)
      else (10, s)
  | _ => (10, s)
  end.

(** The result is the mathematical integer; the rounding to a double
    is left out.  It only changes values beyond 2^53, which the store
    refuses as out of range for INTEGER just like the exact value. *)
Definition parseInt (input : string) : option Z :=
  let '(sign, s1) := strip_sign (trimStart input) in
  let '(R, s2) := strip_prefix s1 in
  match take_digits R s2 with
  | [] => None
  | ds => Some (sign * digits_value R ds)
  end.

(** Values a JSON body field can hold, as far as the handlers look at
    them.  [JNum] carries an integral number. *)
Inductive value :=
| JUndefined
| JNull
| JNum (z : Z)
| JStr (s : string).

(** Number.MAX_SAFE_INTEGER: below it every integer is a Number and
    prints as its decimal digits. *)
Definition MAX_SAFE_INTEGER : Z := 2 ^ 53 - 1.

Definition safe_integer (z : Z) : Prop := Z.abs z <= MAX_SAFE_INTEGER.

Definition in_model (v : value) : Prop :=
  match v with
  | JNum z => safe_integer z
  | _ => True
  end.

(** [!v] is [negb (truthy v)]. *)
Definition truthy (v : value) : bool :=
  match v with
  | JUndefined | JNull => false
  | JNum z => negb (z =? 0)
  | JStr s => negb (String.eqb s "")
  end.

(** The decimal digits of [n >= 0], pushed in front of [acc]. *)
Fixpoint digits_of (fuel : nat) (n : Z) (acc : string) : string :=
  match fuel with
  | O => acc
  | S fuel' =>
      let acc' := String (ascii_of_N (Z.to_N (48 + n mod 10))) acc in
      if n / 10 =? 0 then acc' else digits_of fuel' (n / 10) acc'
  end.

(** [ToString] of an integral Number of magnitude up to
    [MAX_SAFE_INTEGER] (17 digits are enough). *)
Definition Number_toString (z : Z) : string :=
  if z <? 0 then String "-" (digits_of 17 (- z) "") else digits_of 17 z "".

Definition ToString (v : value) : string :=
  match v with
  | JUndefined => "undefined"
  | JNull => "null"
  | JNum z => Number_toString z
  | JStr s => s
  end.

(** [parseInt(v)] first converts its argument to a string. *)
Definition parseInt_value (v : value) : option Z := parseInt (ToString v).

(** A text field of a body: absent or null is [None]; [!s] holds for
    those and for the empty string. *)
Definition present (s : option string) : bool :=
  match s with
  | Some t => negb (String.eqb t "")
  | None => false
  end.

(** *** Shapes of an id *)

Definition decimal (a : ascii) : bool := is_digit 10 a.

Fixpoint all_decimal (s : string) : bool :=
  match s with
  | EmptyString => true
  | String a r => decimal a && all_decimal r
  end.

(** The first character of [s] satisfies [p]. *)
Definition starts_with (p : ascii -> bool) (s : string) : bool :=
  match s with
  | EmptyString => false
  | String a _ => p a
  end.

Definition is_x (a : ascii) : bool := (code a =? 120) || (code a =? 88).

Definition is_sign (a : ascii) : bool := (code a =? 45) || (code a =? 43).

End JS.

(** ** The relational store

    Tables are lists of rows in insertion order.  The columns, the
    CHECK on [players_needed], the unique index on
    [(match_id, name)], the foreign key with ON DELETE CASCADE and the
    two SERIAL sequences are those of the schema. *)

Module Store.

(** What the store accepts as input for its text, DATE and TIME
    columns is its own business: valid encoding, date and time
    syntax.  A DATE or TIME column does not keep the text it was
    given: [date_in] and [time_in] give the value as the driver reads
    it back from the row and the reply shows it, or nothing when the
    store refuses the input. *)
Class Input := {
  text_in : string -> bool;
  date_in : string -> option string;
  time_in : string -> option string
}.

(** One such store input, for running the handlers, with the process
    on UTC: any text without a NUL byte; dates as [YYYY-MM-DD] from
    the year 1000 on, with a month from 01 to 12 and a day from 01 to
    28, read back as a [Date] at midnight and shown as
    [YYYY-MM-DDT00:00:00.000Z]; times as [HH:MM] up to 23:59, read
    back as [HH:MM:00]. *)
Fixpoint no_nul (s : string) : bool :=
  match s with
  | EmptyString => true
  | String a r => negb (JS.code a =? 0) && no_nul r
  end.

Definition digit (a : ascii) : bool := JS.is_digit 10 a.

(** The number two decimal digits write. *)
Definition two_digits (a b : ascii) : Z :=
  10 * (JS.code a - 48) + (JS.code b - 48).

Definition iso_date (s : string) : bool :=
  match s with
  | String y1 (String y2 (String y3 (String y4 (String h1 (String m1 (String m2
      (String h2 (String d1 (String d2 EmptyString))))))))) =>
      digit y1 && negb (JS.code y1 =? 48) && digit y2 && digit y3 && digit y4
      && (JS.code h1 =? 45)
      && digit m1 && digit m2 && (1 <=? two_digits m1 m2) && (two_digits m1 m2 <=? 12)
      && (JS.code h2 =? 45)
      && digit d1 && digit d2 && (1 <=? two_digits d1 d2) && (two_digits d1 d2 <=? 28)
  | _ => false
  end.

Definition iso_time (s : string) : bool :=
  match s with
  | String h1 (String h2 (String c (String m1 (String m2 EmptyString)))) =>
      digit h1 && digit h2 && (two_digits h1 h2 <=? 23) && (JS.code c =? 58)
      && digit m1 && digit m2 && (two_digits m1 m2 <=? 59)
  | _ => false
  end.

Definition iso : Input :=
  {| text_in := no_nul;
     date_in := fun s => if iso_date s then Some (s +:+ "T00:00:00.000Z") else None;
     time_in := fun s => if iso_time s then Some (s +:+ ":00") else None |}.

Definition INT4_MIN : Z := -2147483648.
Definition INT4_MAX : Z := 2147483647.

Definition int4 (z : Z) : bool := (INT4_MIN <=? z) && (z <=? INT4_MAX).

Record match_row := {
  m_id : Z;
  m_location : string;
  m_date : string;
  m_time : option string;
  m_players_needed : Z;
  m_creator_name : string;
  m_creator_contact : string;
  m_created_at : Z
}.

Record player_row := {
  p_id : Z;
  p_match_id : Z;
  p_name : string;
  p_contact : string;
  p_joined_at : Z
}.

Record db := {
  matches : list match_row;
  players : list player_row;
  matches_id_seq : Z;
  players_id_seq : Z
}.

Definition empty : db :=
  {| matches := []; players := []; matches_id_seq := 0; players_id_seq := 0 |}.

Inductive error :=
| InvalidInput
| SequenceExhausted
| StringTooLong
| CheckViolation
| UniqueViolation
| ForeignKeyViolation
| TypeError.

(** A statement runs on the store and gives a new store with its rows
    or an error.  A failed statement changes no table, but a sequence
    value it drew is not given back. *)
Definition query (A : Type) : Type := db -> db * (error + A).

Definition ret {A} (a : A) : query A := fun d => (d, inr a).

Definition throw {A} (e : error) : query A := fun d => (d, inl e).

Definition bind {A B} (q : query A) (k : A -> query B) : query B :=
  fun d =>
    match q d with
    | (d', inl e) => (d', inl e)
    | (d', inr a) => k a d'
    end.

#[export] Instance query_ret : MRet query := @ret.
#[export] Instance query_bind : MBind query := fun A B k q => bind q k.

(** *** Column types *)

(** A byte 10xxxxxx continues a character. *)
Definition is_continuation (a : ascii) : bool :=
  let c := JS.code a in (128 <=? c) && (c <=? 191).

Fixpoint utf8_length (s : string) : nat :=
  match s with
  | EmptyString => O
  | String a r => if is_continuation a then utf8_length r else S (utf8_length r)
  end.

(** The first [n] characters, and what follows them. *)
Fixpoint utf8_split (n : nat) (s : string) : string * string :=
  match s with
  | EmptyString => (EmptyString, EmptyString)
  | String a r =>
      if is_continuation a then
        let '(h, t) := utf8_split n r in (String a h, t)
      else
        match n with
        | O => (EmptyString, s)
        | S n' => let '(h, t) := utf8_split n' r in (String a h, t)
        end
  end.

Fixpoint all_spaces (s : string) : bool :=
  match s with
  | EmptyString => true
  | String a r => (JS.code a =? 32) && all_spaces r
  end.

(** Assignment to a VARCHAR(255) column: a longer string is an error
    unless the excess is all spaces, which are then cut off. *)
Definition varchar255 (s : string) : option string :=
  if (utf8_length s <=? 255)%nat then Some s
  else
    let '(h, t) := utf8_split 255 s in
    if all_spaces t then Some h else None.

(** An INTEGER parameter: [NaN] is no integer, and the value has to
    fit in 32 bits. *)
Definition integer_in (v : option Z) : option Z :=
  match v with
  | Some z => if int4 z then Some z else None
  | None => None
  end.

Definition nextval (seq : Z) : option Z :=
  if seq <? INT4_MAX then Some (seq + 1) else None.

(** *** The aggregate of a match *)

Record creator_json := { creator_name : string; creator_contact : string }.

Record player_json := { name : string; contact : string; joinedAt : Z }.

(** A row of the aggregate queries: [m.*], [creator] and [players];
    [players] is a JSON value that SQL could leave NULL, here [None]. *)
Record aggregate := {
  row : match_row;
  creator : creator_json;
  players_json : option (list player_json)
}.

Definition on_match (matchId : Z) (p : player_row) : Prop := p_match_id p = matchId.

#[export] Instance on_match_dec matchId p : Decision (on_match matchId p).
Proof. unfold on_match. apply _. Defined.

Definition named (matchId : Z) (n : string) (p : player_row) : Prop :=
  p_match_id p = matchId /\ p_name p = n.

#[export] Instance named_dec matchId n p : Decision (named matchId n p).
Proof. unfold named. apply _. Defined.

Definition has_id (matchId : Z) (m : match_row) : Prop := m_id m = matchId.

#[export] Instance has_id_dec matchId m : Decision (has_id matchId m).
Proof. unfold has_id. apply _. Defined.

(** [matches m LEFT JOIN players p ON p.match_id = m.id], the rows of
    one match: its players, or one row with all of [p] NULL. *)
Definition left_join (m : match_row) (ps : list player_row) : list (option player_row) :=
  match filter (on_match (m_id m)) ps with
  | [] => [None]
  | l => Some <$> l
  end.

(** [FILTER (WHERE p.id IS NOT NULL)] *)
Definition not_null (g : list (option player_row)) : list player_row := omap id g.

(** [COUNT(p.id)] *)
Definition count (g : list (option player_row)) : Z := Z.of_nat (length (not_null g)).

Definition joined_le (p q : player_row) : Prop := p_joined_at p <= p_joined_at q.

#[export] Instance joined_le_dec p q : Decision (joined_le p q).
Proof. unfold joined_le. apply _. Defined.

Definition build_player (p : player_row) : player_json :=
  {| name := p_name p; contact := p_contact p; joinedAt := p_joined_at p |}.

(** [json_agg(json_build_object(...) ORDER BY p.joined_at)]: NULL when
    it is given no row.  The order of rows with equal [joined_at] is
    the store's choice; a stable merge sort is one such choice. *)
Definition json_agg (rows : list player_row) : option (list player_json) :=
  match rows with
  | [] => None
  | _ => Some (build_player <$> merge_sort joined_le rows)
  end.

Definition COALESCE {A} (x y : option A) : option A :=
  match x with
  | Some v => Some v
  | None => y
  end.

Definition build_aggregate (ps : list player_row) (m : match_row) : aggregate :=
  let g := left_join m ps in
  {| row := m;
     creator := {| creator_name := m_creator_name m;
                   creator_contact := m_creator_contact m |};
     players_json := COALESCE (json_agg (not_null g)) (Some []) |}.

Definition newer (a b : aggregate) : Prop :=
  m_created_at (row b) <= m_created_at (row a).

#[export] Instance newer_dec a b : Decision (newer a b).
Proof. unfold newer. apply _. Defined.

(** *** The statements of the handlers *)

(** [SELECT m.*, creator, players FROM matches m LEFT JOIN players p ...
    GROUP BY m.id ORDER BY m.created_at DESC].  [m.id] is the primary
    key: there is one group for each row of [matches]. *)
Definition select_aggregates : query (list aggregate) :=
  fun d => (d, inr (merge_sort newer (build_aggregate (players d) <$> matches d))).

(** The same [WHERE m.id = $1]. *)
Definition select_aggregate (matchId : option Z) : query (list aggregate) :=
  fun d =>
    match integer_in matchId with
    | None => (d, inl InvalidInput)
    | Some i =>
        (d, inr (build_aggregate (players d) <$> filter (has_id i) (matches d)))
    end.

(** [SELECT m.*, COUNT(p.id) as player_count ... WHERE m.id = $1
    GROUP BY m.id] *)
Definition select_match_count (matchId : option Z) : query (list (match_row * Z)) :=
  fun d =>
    match integer_in matchId with
    | None => (d, inl InvalidInput)
    | Some i =>
        (d, inr ((fun m => (m, count (left_join m (players d))))
                   <$> filter (has_id i) (matches d)))
    end.

(** [SELECT * FROM players WHERE match_id = $1 AND name = $2] *)
Definition select_player `{Input} (matchId : option Z) (n : string)
  : query (list player_row) :=
  fun d =>
    match integer_in matchId with
    | None => (d, inl InvalidInput)
    | Some i =>
        if text_in n then (d, inr (filter (named i n) (players d)))
        else (d, inl InvalidInput)
    end.

Definition set_matches (d : db) (ms : list match_row) (seq : Z) : db :=
  {| matches := ms; players := players d;
     matches_id_seq := seq; players_id_seq := players_id_seq d |}.

Definition set_players (d : db) (ps : list player_row) (seq : Z) : db :=
  {| matches := matches d; players := ps;
     matches_id_seq := matches_id_seq d; players_id_seq := seq |}.

(** A TIME parameter: [null] is stored as NULL. *)
Definition time_param `{Input} (time : option string) : option (option string) :=
  match time with
  | None => Some None
  | Some t => Some <$> time_in t
  end.

(** [INSERT INTO matches (location, date, time, players_needed,
    creator_name, creator_contact) VALUES (...) RETURNING *].  The
    parameters are read and the texts fitted to their columns before
    the statement runs; then [id] draws from its sequence and
    [created_at] takes the current time, and the CHECK and the primary
    key decide.  The row returned has the date and the time as the
    store keeps them. *)
Definition insert_match `{Input} (now : Z) (location date : string)
    (time : option string) (players_needed : option Z)
    (cname ccontact : string) : query (list match_row) :=
  fun d =>
    if negb (text_in location && text_in cname && text_in ccontact)
    then (d, inl InvalidInput)
    else
      match date_in date, time_param time, integer_in players_needed with
      | Some stored_date, Some stored_time, Some pn =>
          match varchar255 location, varchar255 cname, varchar255 ccontact with
          | Some l, Some cn, Some cc =>
              match nextval (matches_id_seq d) with
              | None => (d, inl SequenceExhausted)
              | Some i =>
                  let d1 := set_matches d (matches d) i in
                  if negb ((0 <? pn) && (pn <=? 20)) then (d1, inl CheckViolation)
                  else if bool_decide (Exists (has_id i) (matches d))
                  then (d1, inl UniqueViolation)
                  else
                    let r := {| m_id := i; m_location := l; m_date := stored_date;
                                m_time := stored_time; m_players_needed := pn;
                                m_creator_name := cn; m_creator_contact := cc;
                                m_created_at := now |} in
                    (set_matches d (matches d ++ [r]) i, inr [r])
              end
          | _, _, _ => (d, inl StringTooLong)
          end
      | _, _, _ => (d, inl InvalidInput)
      end.

Definition has_player_id (i : Z) (p : player_row) : Prop := p_id p = i.

#[export] Instance has_player_id_dec i p : Decision (has_player_id i p).
Proof. unfold has_player_id. apply _. Defined.

(** [INSERT INTO players (match_id, name, contact) VALUES ($1, $2, $3)];
    here too the texts are fitted before the statement runs and [id]
    draws from its sequence. *)
Definition insert_player `{Input} (now : Z) (matchId : option Z)
    (n c : string) : query unit :=
  fun d =>
    match integer_in matchId with
    | None => (d, inl InvalidInput)
    | Some mid =>
        if negb (text_in n && text_in c) then (d, inl InvalidInput)
        else
          match varchar255 n, varchar255 c with
          | Some n', Some c' =>
              match nextval (players_id_seq d) with
              | None => (d, inl SequenceExhausted)
              | Some i =>
                  let d1 := set_players d (players d) i in
                  if bool_decide (Exists (has_player_id i) (players d))
                  then (d1, inl UniqueViolation)
                  else if bool_decide (Exists (named mid n') (players d))
                  then (d1, inl UniqueViolation)
                  else if bool_decide (Exists (has_id mid) (matches d))
                  then
                    let r := {| p_id := i; p_match_id := mid; p_name := n';
                                p_contact := c'; p_joined_at := now |} in
                    (set_players d (players d ++ [r]) i, inr tt)
                  else (d1, inl ForeignKeyViolation)
              end
          | _, _ => (d, inl StringTooLong)
          end
    end.

(** [DELETE FROM players WHERE match_id = $1 AND name = $2 RETURNING *] *)
Definition delete_player `{Input} (matchId : option Z) (n : string)
  : query (list player_row) :=
  fun d =>
    match integer_in matchId with
    | None => (d, inl InvalidInput)
    | Some mid =>
        if text_in n then
          (set_players d (filter (fun p => ~ named mid n p) (players d))
                       (players_id_seq d),
           inr (filter (named mid n) (players d)))
        else (d, inl InvalidInput)
    end.

(** [DELETE FROM players WHERE match_id = $1] *)
Definition delete_players_of (matchId : option Z) : query unit :=
  fun d =>
    match integer_in matchId with
    | None => (d, inl InvalidInput)
    | Some mid =>
        (set_players d (filter (fun p => ~ on_match mid p) (players d))
                     (players_id_seq d),
         inr tt)
    end.

(** [DELETE FROM matches WHERE id = $1 RETURNING *]; the players of a
    deleted match go with it (ON DELETE CASCADE). *)
Definition delete_match (matchId : option Z) : query (list match_row) :=
  fun d =>
    match integer_in matchId with
    | None => (d, inl InvalidInput)
    | Some mid =>
        match filter (has_id mid) (matches d) with
        | [] => (d, inr [])
        | deleted =>
            ({| matches := filter (fun m => ~ has_id mid m) (matches d);
                players := filter (fun p => ~ on_match mid p) (players d);
                matches_id_seq := matches_id_seq d;
                players_id_seq := players_id_seq d |},
             inr deleted)
        end
    end.

End Store.

(** ** The handlers of the match endpoints *)

Module Handlers.
Import Store.

Record created_match := {
  c_id : Z;
  c_location : string;
  c_date : string;
  c_time : option string;
  c_playersNeeded : Z;
  c_creator : creator_json;
  c_players : list player_json;
  c_createdAt : Z
}.

Inductive payload :=
| Error (error : string)
| Message (message : string)
| Row (a : aggregate)
| Rows (l : list aggregate)
| Created (m : created_match)
| Undefined.

Record response := { code : Z; body : payload }.

Definition reply (c : Z) (b : payload) : response := {| code := c; body := b |}.

Definition handler : Type := db -> db * response.

(** The replies the error taxonomy names. *)
Definition full : response := reply 400 (Error "Match is full!").
Definition duplicate_member : response :=
  reply 400 (Error "You have already joined this match").
Definition match_not_found : response := reply 404 (Error "Match not found").
Definition player_not_found : response :=
  reply 404 (Error "Player not found in this match").

(** [try { ... } catch (err) { reply.code(500); return { error } }] *)
Definition try_catch (failure : string) (h : query response) : handler :=
  fun d =>
    match h d with
    | (d', inr r) => (d', r)
    | (d', inl _) => (d', reply 500 (Error failure))
    end.

(** [const { ... } = request.body]: a request without a body throws
    there, inside the [try], before any statement. *)
Definition with_body {B} (failure : string) (h : B -> handler) (body : option B)
  : handler :=
  match body with
  | Some b => h b
  | None => try_catch failure (throw TypeError)
  end.

(** The string in a text field that passed the [!field] test. *)
Definition text (s : option string) : string := default "" s.

(** [rows[0]] *)
Definition first {A} (rows : list A) : option A := head rows.

(** GET /matches *)
Definition list_matches : handler :=
  try_catch "Failed to fetch matches" (
    result ← select_aggregates;
    mret (reply 200 (Rows result))).

(** GET /matches/:id *)
Definition get_match (id : string) : handler :=
  try_catch "Failed to fetch match" (
    let matchId := JS.parseInt id in
    result ← select_aggregate matchId;
    match first result with
    | None => mret (reply 404 (Error "Match not found"))
    | Some a => mret (reply 200 (Row a))
    end).

Record creator_body := { cb_name : option string; cb_contact : option string }.

Record create_body := {
  b_location : option string;
  b_date : option string;
  b_time : option string;
  b_playersNeeded : JS.value;
  b_creator : option creator_body
}.

(** [!creator || !creator.name || !creator.contact] *)
Definition creator_missing (c : option creator_body) : bool :=
  match c with
  | None => true
  | Some c => negb (JS.present (cb_name c)) || negb (JS.present (cb_contact c))
  end.

(** [time || null] *)
Definition or_null (s : option string) : option string :=
  if JS.present s then s else None.

(** "Format response to match frontend expectations" *)
Definition format (newMatch : match_row) : created_match :=
  {| c_id := m_id newMatch;
     c_location := m_location newMatch;
     c_date := m_date newMatch;
     c_time := m_time newMatch;
     c_playersNeeded := m_players_needed newMatch;
     c_creator :=
       {| creator_name := m_creator_name newMatch;
          creator_contact := m_creator_contact newMatch |};
     c_players := [];
     c_createdAt := m_created_at newMatch |}.

(** The creator of a body, once [creator_missing] is excluded. *)
Definition creator_of (b : create_body) : creator_body :=
  default {| cb_name := None; cb_contact := None |} (b_creator b).

(** POST /matches *)
Definition create_match `{Input} (now : Z) (b : create_body) : handler :=
  try_catch "Failed to create match" (
    if negb (JS.present (b_location b)) || negb (JS.present (b_date b))
       || negb (JS.truthy (b_playersNeeded b)) || creator_missing (b_creator b)
    then mret (reply 400 (Error "Missing required fields"))
    else
      let c := creator_of b in
      result ← insert_match now (text (b_location b)) (text (b_date b))
                 (or_null (b_time b)) (JS.parseInt_value (b_playersNeeded b))
                 (text (cb_name c)) (text (cb_contact c));
      match first result with
      | None => throw TypeError
      | Some newMatch => mret (reply 200 (Created (format newMatch)))
      end).

Record join_body := { jb_name : option string; jb_contact : option string }.

(** POST /matches/:id/join *)
Definition join `{Input} (now : Z) (id : string) (b : join_body) : handler :=
  try_catch "Failed to join match" (
    let matchId := JS.parseInt id in
    if negb (JS.present (jb_name b)) || negb (JS.present (jb_contact b))
    then mret (reply 400 (Error "Name and contact required"))
    else
      matchResult ← select_match_count matchId;
      match first matchResult with
      | None => mret (reply 404 (Error "Match not found"))
      | Some (m, player_count) =>
          if m_players_needed m <=? player_count
          then mret (reply 400 (Error "Match is full!"))
          else
            existingPlayer ← select_player matchId (text (jb_name b));
            if (0 <? length existingPlayer)%nat
            then mret (reply 400 (Error "You have already joined this match"))
            else
              _ ← insert_player now matchId (text (jb_name b)) (text (jb_contact b));
              updatedMatch ← select_aggregate matchId;
              match first updatedMatch with
              | None => mret (reply 200 Undefined)
              | Some a => mret (reply 200 (Row a))
              end
      end).

Record leave_body := { lb_name : option string }.

(** POST /matches/:id/leave, on the [name] of the body *)
Definition leave `{Input} (id : string) (n : option string) : handler :=
  try_catch "Failed to leave match" (
    let matchId := JS.parseInt id in
    if negb (JS.present n)
    then mret (reply 400 (Error "Name required"))
    else
      result ← delete_player matchId (text n);
      if (length result =? 0)%nat
      then mret (reply 404 (Error "Player not found in this match"))
      else mret (reply 200 (Message "Left match successfully"))).

(** DELETE /matches/:id *)
Definition delete (id : string) : handler :=
  try_catch "Failed to delete match" (
    let matchId := JS.parseInt id in
    _ ← delete_players_of matchId;
    result ← delete_match matchId;
    if (length result =? 0)%nat
    then mret (reply 404 (Error "Match not found"))
    else mret (reply 200 (Message "Match deleted successfully"))).

(** *** Join, statement by statement

    Between two [await]s other requests run.  A Join in progress is at
    one of these points; [join_step] runs it up to its next [await]. *)
Inductive join_state :=
| Received (id : string) (b : join_body)
| HasSpace (matchId : option Z) (n c : string)
| NotJoined (matchId : option Z) (n c : string)
| Inserted (matchId : option Z)
| Replied (r : response).

Definition join_failed : response := reply 500 (Error "Failed to join match").

Definition join_step `{Input} (now : Z) (s : join_state) (d : db) : db * join_state :=
  match s with
  | Received id b =>
      let matchId := JS.parseInt id in
      if negb (JS.present (jb_name b)) || negb (JS.present (jb_contact b))
      then (d, Replied (reply 400 (Error "Name and contact required")))
      else
        match select_match_count matchId d with
        | (d', inl _) => (d', Replied join_failed)
        | (d', inr matchResult) =>
            match first matchResult with
            | None => (d', Replied (reply 404 (Error "Match not found")))
            | Some (m, player_count) =>
                if m_players_needed m <=? player_count
                then (d', Replied (reply 400 (Error "Match is full!")))
                else (d', HasSpace matchId (text (jb_name b)) (text (jb_contact b)))
            end
        end
  | HasSpace matchId n c =>
      match select_player matchId n d with
      | (d', inl _) => (d', Replied join_failed)
      | (d', inr existingPlayer) =>
          if (0 <? length existingPlayer)%nat
          then (d', Replied (reply 400 (Error "You have already joined this match")))
          else (d', NotJoined matchId n c)
      end
  | NotJoined matchId n c =>
      match insert_player now matchId n c d with
      | (d', inl _) => (d', Replied join_failed)
      | (d', inr _) => (d', Inserted matchId)
      end
  | Inserted matchId =>
      match select_aggregate matchId d with
      | (d', inl _) => (d', Replied join_failed)
      | (d', inr updatedMatch) =>
          match first updatedMatch with
          | None => (d', Replied (reply 200 Undefined))
          | Some a => (d', Replied (reply 200 (Row a)))
          end
      end
  | Replied r => (d, Replied r)
  end.

(** Two Joins in flight over one store.  A schedule says, statement
    by statement, which of the two runs next and at what time. *)
Inductive turn := First | Second.

Record world := { store : db; first_join : join_state; second_join : join_state }.

Definition world_step `{Input} (t : turn * Z) (w : world) : world :=
  match t with
  | (First, now) =>
      let '(d, s) := join_step now (first_join w) (store w) in
      {| store := d; first_join := s; second_join := second_join w |}
  | (Second, now) =>
      let '(d, s) := join_step now (second_join w) (store w) in
      {| store := d; first_join := first_join w; second_join := s |}
  end.

Definition run `{Input} (schedule : list (turn * Z)) (w : world) : world :=
  fold_left (fun w t => world_step t w) schedule w.

(** The same world and schedule with the two Joins exchanged. *)
Definition flip (t : turn * Z) : turn * Z :=
  match t with
  | (First, now) => (Second, now)
  | (Second, now) => (First, now)
  end.

Definition swap (w : world) : world :=
  {| store := store w; first_join := second_join w; second_join := first_join w |}.

(** Two Joins received, none of them started. *)
Definition received (d : db) (id1 : string) (b1 : join_body)
    (id2 : string) (b2 : join_body) : world :=
  {| store := d; first_join := Received id1 b1; second_join := Received id2 b2 |}.

(** A Join succeeded when it replied 200 with the refreshed aggregate. *)
Definition succeeded (s : join_state) : bool :=
  match s with
  | Replied {| code := 200; body := Row _ |} => true
  | _ => false
  end.

End Handlers.

(** ** Sessions

    The [sessions] map of the process, with the handlers of the
    [/auth] endpoints. *)

Module Auth.

(** Modelled from the spec: the [users] table, whose DDL is not in the
    repository.  Its rows have the columns the queries name; the store
    generates [id]. *)
Record user_row := {
  u_id : Z;
  u_username : string;
  u_password_hash : string;
  u_name : string;
  u_contact : string
}.

Record state := {
  sessions : gmap string Z;
  users : list user_row
}.

(** [bcrypt.compare(password, hash)] *)
Class Bcrypt := { compare : string -> string -> bool }.

Record user_json := {
  user_id : Z;
  username : string;
  user_name : string;
  user_contact : string
}.

Inductive payload :=
| Error (error : string)
| Session (token : string) (user : user_json)
| User (user : user_json)
| Success.

Record response := { code : Z; body : payload }.

Definition reply (c : Z) (b : payload) : response := {| code := c; body := b |}.

Definition public (u : user_row) : user_json :=
  {| user_id := u_id u; username := u_username u;
     user_name := u_name u; user_contact := u_contact u |}.

(** [s] without the prefix [p], when it starts with it. *)
Fixpoint without_prefix (p s : string) : option string :=
  match p, s with
  | EmptyString, _ => Some s
  | String a p', String b s' =>
      if Ascii.eqb a b then without_prefix p' s' else None
  | String _ _, EmptyString => None
  end.

(** [s.replace(pattern, replacement)] with a string pattern: the first
    occurrence only. *)
Fixpoint replace (pattern replacement s : string) : string :=
  match without_prefix pattern s with
  | Some rest => String.append replacement rest
  | None =>
      match s with
      | EmptyString => EmptyString
      | String a r => String a (replace pattern replacement r)
      end
  end.

(** [request.headers.authorization?.replace('Bearer ', '')] *)
Definition bearer (authorization : option string) : option string :=
  replace "Bearer " "" <$> authorization.

(** [SELECT id, username, name, contact FROM users WHERE id = $1] *)
Definition select_user (userId : Z) (st : state) : list user_json :=
  public <$> filter (fun u => u_id u = userId) (users st).

(** [SELECT * FROM users WHERE username = $1] *)
Definition select_by_username (n : string) (st : state) : list user_row :=
  filter (fun u => u_username u = n) (users st).

(** [getUserFromToken]: [null] is [None]. *)
Definition getUserFromToken (token : string) (st : state) : option user_json :=
  match sessions st !! token with
  | None => None
  | Some userId =>
      if userId =? 0 then None
      else head (select_user userId st)
  end.

(** GET /auth/me *)
Definition me (authorization : option string) (st : state) : response :=
  let token := bearer authorization in
  if negb (JS.present token) then reply 401 (Error "Not authenticated")
  else
    match getUserFromToken (default "" token) st with
    | None => reply 401 (Error "Invalid session")
    | Some user => reply 200 (User user)
    end.

(** POST /auth/logout *)
Definition logout (authorization : option string) (st : state) : state * response :=
  let token := bearer authorization in
  if JS.present token
  then ({| sessions := base.delete (default "" token) (sessions st);
           users := users st |}, reply 200 Success)
  else (st, reply 200 Success).

(** POST /auth/login; [token] is what [generateToken()] returns. *)
Definition login `{Bcrypt} (token : string) (n password : option string)
    (st : state) : state * response :=
  if negb (JS.present n) || negb (JS.present password)
  then (st, reply 400 (Error "Username and password required"))
  else
    match head (select_by_username (default "" n) st) with
    | None => (st, reply 401 (Error "Invalid username or password"))
    | Some user =>
        if negb (compare (default "" password) (u_password_hash user))
        then (st, reply 401 (Error "Invalid username or password"))
        else
          ({| sessions := <[token := u_id user]> (sessions st); users := users st |},
           reply 200 (Session token (public user)))
    end.

(** POST /auth/signup; [inserted] is the row the store returns for the
    INSERT, or [None] when the store refuses it. *)
Definition signup (token : string) (inserted : option user_row)
    (n password name contact : option string)
    (st : state) : state * response :=
  if negb (JS.present n) || negb (JS.present password)
     || negb (JS.present name) || negb (JS.present contact)
  then (st, reply 400 (Error "All fields required"))
  else if (0 <? length (select_by_username (default "" n) st))%nat
  then (st, reply 400 (Error "Username already taken"))
  else
    match inserted with
    | None => (st, reply 500 (Error "Failed to create account"))
    | Some user =>
        ({| sessions := <[token := u_id user]> (sessions st);
            users := users st ++ [user] |},
         reply 200 (Session token (public user)))
    end.

(** The requests of the auth endpoints, with what the environment
    contributes to each. *)
Inductive request :=
| Me (authorization : option string)
| Logout (authorization : option string)
| Login (token : string) (n password : option string)
| Signup (token : string) (inserted : option user_row)
         (n password name contact : option string).

Definition handle `{Bcrypt} (r : request) (st : state) : state * response :=
  match r with
  | Me a => (st, me a st)
  | Logout a => logout a st
  | Login t n p => login t n p st
  | Signup t i n p nm c => signup t i n p nm c st
  end.


(** The state after a sequence of requests. *)
Definition run `{Bcrypt} (rs : list request) (st : state) : state :=
  fold_left (fun st r => fst (handle r st)) rs st.

(** The process starts without sessions. *)
Definition started (us : list user_row) : state := {| sessions := ∅; users := us |}.


End Auth.

(** ** Requests in sequence *)

Module Sequential.
Import Store Handlers.

Inductive request :=
| ListMatches
| GetMatch (id : string)
| CreateMatch (now : Z) (body : option create_body)
| Join (now : Z) (id : string) (body : option join_body)
| Leave (id : string) (body : option leave_body)
| DeleteMatch (id : string).

Definition handle `{Input} (r : request) : handler :=
  match r with
  | ListMatches => list_matches
  | GetMatch id => get_match id
  | CreateMatch now body => with_body "Failed to create match" (create_match now) body
  | Join now id body => with_body "Failed to join match" (join now id) body
  | Leave id body =>
      with_body "Failed to leave match" (fun b => leave id (lb_name b)) body
  | DeleteMatch id => delete id
  end.

(** The store after a sequence of requests, each one handled to its
    end before the next starts. *)
Definition run_all `{Input} (rs : list request) (d : db) : db :=
  fold_left (fun d r => fst (handle r d)) rs d.

End Sequential.

(** ** What the schema guarantees, and the capacity of a match *)

Module Schema.
Import Store.

Definition players_of (d : db) (matchId : Z) : list player_row :=
  filter (on_match matchId) (players d).

Definition player_count (d : db) (matchId : Z) : Z :=
  Z.of_nat (length (players_of d matchId)).

Definition key (p : player_row) : Z * string := (p_match_id p, p_name p).

(** The constraints of the schema, with the SERIAL sequences ahead of
    the ids they have given out. *)
Record valid (d : db) : Prop := {
  primary_key : NoDup (m_id <$> matches d);
  foreign_key : forall p, p ∈ players d -> exists m, m ∈ matches d /\ m_id m = p_match_id p;
  unique_player_per_match : NoDup (key <$> players d);
  check_players_needed :
    forall m, m ∈ matches d -> 0 < m_players_needed m <= 20;
  matches_serial : forall m, m ∈ matches d -> 1 <= m_id m <= matches_id_seq d;
  players_serial : forall p, p ∈ players d -> 1 <= p_id p <= players_id_seq d;
  matches_seq_range : 0 <= matches_id_seq d <= INT4_MAX;
  players_seq_range : 0 <= players_id_seq d <= INT4_MAX
}.

(** No match has more players than it needs. *)
Definition within_capacity (d : db) : Prop :=
  forall m, m ∈ matches d -> player_count d (m_id m) <= m_players_needed m.

Definition invariant (d : db) : Prop := valid d /\ within_capacity d.


(** *** Requests the store takes as they are *)

Definition fits (s : string) : bool := (utf8_length s <=? 255)%nat.

(** Every required field of a creation body is there. *)
Definition provided (b : Handlers.create_body) : bool :=
  JS.present (Handlers.b_location b) && JS.present (Handlers.b_date b)
  && JS.truthy (Handlers.b_playersNeeded b)
  && negb (Handlers.creator_missing (Handlers.b_creator b)).

(** The store accepts its texts, its date and its time, and the texts
    fit their columns. *)
Definition storable `{Input} (b : Handlers.create_body) : bool :=
  let c := Handlers.creator_of b in
  text_in (Handlers.text (Handlers.b_location b))
  && bool_decide (is_Some (date_in (Handlers.text (Handlers.b_date b))))
  && bool_decide (is_Some (time_param (Handlers.or_null (Handlers.b_time b))))
  && text_in (Handlers.text (Handlers.cb_name c))
  && text_in (Handlers.text (Handlers.cb_contact c))
  && fits (Handlers.text (Handlers.b_location b))
  && fits (Handlers.text (Handlers.cb_name c))
  && fits (Handlers.text (Handlers.cb_contact c)).

(** The date and the time of a creation body as the store keeps them
    and the reply shows them, for a body the store accepts. *)
Definition stored_date `{Input} (b : Handlers.create_body) : string :=
  default "" (date_in (Handlers.text (Handlers.b_date b))).

Definition stored_time `{Input} (b : Handlers.create_body) : option string :=
  default None (time_param (Handlers.or_null (Handlers.b_time b))).

(** The row a creation adds. *)
Definition new_match `{Input} (now : Z) (b : Handlers.create_body) (n : Z) (d : db)
  : match_row :=
  let c := Handlers.creator_of b in
  {| m_id := matches_id_seq d + 1;
     m_location := Handlers.text (Handlers.b_location b);
     m_date := stored_date b;
     m_time := stored_time b;
     m_players_needed := n;
     m_creator_name := Handlers.text (Handlers.cb_name c);
     m_creator_contact := Handlers.text (Handlers.cb_contact c);
     m_created_at := now |}.

(** Name and contact are there, and the store takes them. *)
Definition joinable `{Input} (b : Handlers.join_body) : bool :=
  JS.present (Handlers.jb_name b) && JS.present (Handlers.jb_contact b)
  && text_in (Handlers.text (Handlers.jb_name b))
  && text_in (Handlers.text (Handlers.jb_contact b))
  && fits (Handlers.text (Handlers.jb_name b))
  && fits (Handlers.text (Handlers.jb_contact b)).

(** The row a Join adds. *)
Definition new_player (now : Z) (matchId : Z) (b : Handlers.join_body) (d : db)
  : player_row :=
  {| p_id := players_id_seq d + 1; p_match_id := matchId;
     p_name := Handlers.text (Handlers.jb_name b);
     p_contact := Handlers.text (Handlers.jb_contact b);
     p_joined_at := now |}.

(** The player list of an aggregate is never longer than the match
    needs. *)
Definition aggregate_within_capacity (a : aggregate) : Prop :=
  exists ps, players_json a = Some ps /\
             Z.of_nat (length ps) <= m_players_needed (row a).

(** Whatever aggregate ListMatches, GetMatch or a Join returns on [d]
    is within capacity. *)
Definition aggregates_within_capacity `{Input} (d : db) : Prop :=
  (forall l a, snd (Handlers.list_matches d) = Handlers.reply 200 (Handlers.Rows l) ->
               a ∈ l -> aggregate_within_capacity a) /\
  (forall id a, snd (Handlers.get_match id d) = Handlers.reply 200 (Handlers.Row a) ->
                aggregate_within_capacity a) /\
  (forall now id b a,
     snd (Handlers.join now id b d) = Handlers.reply 200 (Handlers.Row a) ->
     aggregate_within_capacity a).

(** Join on a match of [d] that has all its players answers Full and
    changes nothing. *)
Definition full_is_refused `{Input} (d : db) : Prop :=
  forall now id b m,
    JS.present (Handlers.jb_name b) = true ->
    JS.present (Handlers.jb_contact b) = true ->
    JS.parseInt id = Some (m_id m) -> m ∈ matches d ->
    m_players_needed m <= player_count d (m_id m) ->
    Handlers.join now id b d = (d, Handlers.full).

(** The other Join has its row in and the match is full: the one
    still to start, or already refused, does not get in. *)
Definition second_is_late (id2 : string) (b2 : Handlers.join_body) (mid : Z)
    (m : match_row) (w : Handlers.world) : Prop :=
  valid (Handlers.store w) /\ m ∈ matches (Handlers.store w) /\
  m_players_needed m <= player_count (Handlers.store w) mid /\
  ((exists i, Handlers.first_join w = Handlers.Inserted i) \/ (exists r, Handlers.first_join w = Handlers.Replied r)) /\
  (Handlers.second_join w = Handlers.Received id2 b2 \/
   (exists r, Handlers.second_join w = Handlers.Replied r /\ Handlers.succeeded (Handlers.Replied r) = false)).

End Schema.

(** ** A scenario: one seat, two players *)

Module Scenario.
Import Store Handlers.

Definition turf : create_body :=
  {| b_location := Some "Imphal Stadium"; b_date := Some "2026-02-25";
     b_time := Some "18:00"; b_playersNeeded := JS.JNum 1;
     b_creator := Some {| cb_name := Some "Rahul Kumar";
                          cb_contact := Some "+91 9876543210" |} |}.


Definition A : join_body := {| jb_name := Some "A"; jb_contact := Some "@a" |}.
Definition B : join_body := {| jb_name := Some "B"; jb_contact := Some "@b" |}.

Definition requests : list Sequential.request :=
  [Sequential.CreateMatch 100 (Some turf);
   Sequential.Join 101 "1" (Some A);
   Sequential.Join 102 "1" (Some B);
   Sequential.Leave "1" (Some {| lb_name := Some "A" |});
   Sequential.Join 103 "1" (Some B);
   Sequential.Join 104 "1" None].

(** A user, a session of theirs, and a stand-in for bcrypt that
    compares the texts. *)
Definition rahul : Auth.user_row :=
  {| Auth.u_id := 7; Auth.u_username := "rahul"; Auth.u_password_hash := "secret";
     Auth.u_name := "Rahul Kumar"; Auth.u_contact := "+91 9876543210" |}.

Definition plain : Auth.Bcrypt := {| Auth.compare := String.eqb |}.

Definition authorization : option string := Some "Bearer session_k3x9".

Definition logins : list Auth.request :=
  [Auth.Login "session_k3x9" (Some "rahul") (Some "secret")].


(** Two matches, and two players whose rows carry times out of
    order. *)
Definition second_turf : create_body :=
  {| b_location := Some "Shillong Sports Complex"; b_date := Some "2026-02-26";
     b_time := None; b_playersNeeded := JS.JStr "8";
     b_creator := Some {| cb_name := Some "Priya Singh";
                          cb_contact := Some "@priya_sports" |} |}.

Definition busy : list Sequential.request :=
  [Sequential.CreateMatch 100 (Some second_turf);
   Sequential.CreateMatch 200 (Some turf);
   Sequential.Join 300 "1" (Some A);
   Sequential.Join 250 "1" (Some B)].

(** Statement by statement, in turns. *)
Definition interleaved : list (turn * Z) :=
  [(First, 101); (Second, 102); (First, 103); (Second, 104);
   (First, 105); (Second, 106); (First, 107); (Second, 108)].

(** The store with the one match, nobody in it yet. *)
Definition created : db := fst (create_match (H := iso) 100 turf empty).

(** Its row. *)
Definition new_row : match_row := Schema.new_match (H := iso) 100 turf 1 empty.

(** The store once A has joined. *)
Definition joined : db := fst (join (H := iso) 101 "1" A created).

End Scenario.

(** ** Tokens and headers *)

Module Tokens.

(** A digit of [Number.prototype.toString(36)]: [0-9], then [a-z]. *)
Definition digit36 (n : Z) : ascii :=
  ascii_of_N (Z.to_N (if n <? 10 then 48 + n else 87 + n)).

(** The base-36 digits of [n >= 0], pushed in front of [acc]. *)
Fixpoint digits36_of (fuel : nat) (n : Z) (acc : string) : string :=
  match fuel with
  | O => acc
  | S fuel' =>
      let acc' := String (digit36 (n mod 36)) acc in
      if n / 36 =? 0 then acc' else digits36_of fuel' (n / 36) acc'
  end.

(** [n.toString(36)] for an integer [0 <= n <= MAX_SAFE_INTEGER]
    (11 digits are enough), as for [Date.now()]. *)
Definition toString36 (n : Z) : string := digits36_of 11 n "".

(** [s.substring(2)] *)
Definition substring2 (s : string) : string :=
  match s with
  | String _ (String _ r) => r
  | _ => ""
  end.

(** [generateToken]; [random] is what [Math.random().toString(36)]
    gives and [now] what [Date.now()] gives. *)
Definition generateToken (random : string) (now : Z) : string :=
  "session_" +:+ substring2 random +:+ toString36 now.

Fixpoint no_space (s : string) : bool :=
  match s with
  | EmptyString => true
  | String a r => negb (JS.code a =? 32) && no_space r
  end.

End Tokens.

(** ** What a request leaves as it was *)

Module Kept.
Import Store.

(** The two tables are what they were; a sequence may have moved. *)
Definition tables_kept (d d' : db) : Prop :=
  matches d' = matches d /\ players d' = players d.

(** A user table with a primary key. *)
Definition users_key (st : Auth.state) : Prop :=
  NoDup (Auth.u_id <$> Auth.users st).

End Kept.

(** ** More samples *)

Module Samples.
Import Store Handlers.

(** [n] times the letter x. *)
Fixpoint xs (n : nat) : string :=
  match n with
  | O => ""
  | S n' => String "x" (xs n')
  end.

(** A body whose name has 256 characters. *)
Definition long : join_body := {| jb_name := Some (xs 256); jb_contact := Some "@x" |}.

(** What [Math.random().toString(36)] and [Date.now()] may give. *)
Definition random : string := "0.k3x9f2m7q".
Definition clock : Z := 1772000000000.

(** The user table of the scenario, a process just started on it,
    and a row the store returns for a new user. *)
Definition fresh : Auth.state := Auth.started [Scenario.rahul].

Definition priya : Auth.user_row :=
  {| Auth.u_id := 8; Auth.u_username := "priya"; Auth.u_password_hash := "$2b$10$hash";
     Auth.u_name := "Priya Singh"; Auth.u_contact := "@priya_sports" |}.

(** Two Joins of the same name, statement by statement in turns. *)
Definition twice : world := received Scenario.created "1" Scenario.A "1" Scenario.A.

End Samples.

(** * Properties *)

Import Store Handlers Schema.

(** ** [parseInt] *)

Example parseInt_5abc : JS.parseInt "5abc" = Some 5.
Proof. reflexivity. Qed.

Example parseInt_abc : JS.parseInt "abc" = None.
Proof. reflexivity. Qed.

Example parseInt_hex : JS.parseInt "0x10" = Some 16.
Proof. reflexivity. Qed.

Example parseInt_minus : JS.parseInt " -12px" = Some (-12).
Proof. reflexivity. Qed.

Example parseInt_nbsp : JS.parseInt (String (ascii_of_nat 194) (String (ascii_of_nat 160) "7")) = Some 7.
Proof. reflexivity. Qed.

Example parseInt_number : JS.parseInt_value (JS.JNum 25) = Some 25.
Proof. reflexivity. Qed.

Example parseInt_negative_number : JS.parseInt_value (JS.JNum (-3)) = Some (-3).
Proof. reflexivity. Qed.

Example toString_max : JS.Number_toString JS.MAX_SAFE_INTEGER = "9007199254740991".
Proof. reflexivity. Qed.

Example varchar255_short : varchar255 "Imphal Stadium" = Some "Imphal Stadium".
Proof. reflexivity. Qed.

Example parseInt_lone_prefix : JS.parseInt "0x" = None.
Proof. reflexivity. Qed.

(** ** The handlers at work *)

Example list_matches_empty : list_matches empty = (empty, reply 200 (Rows [])).
Proof. reflexivity. Qed.

Example get_match_unknown :
  get_match "42" Scenario.created = (Scenario.created, match_not_found).
Proof. reflexivity. Qed.

(** Newest match first, and in it the players by the time they
    joined, not by the order of their rows. *)
Example list_matches_busy :
  let d := Sequential.run_all (H := iso) Scenario.busy empty in
  (fun a => (m_id (row a), players_json a))
    <$> match body (snd (list_matches d)) with Rows l => l | _ => [] end
  = [(2, Some []);
     (1, Some [{| name := "B"; contact := "@b"; joinedAt := 250 |};
               {| name := "A"; contact := "@a"; joinedAt := 300 |}])].
Proof. reflexivity. Qed.

(** A request without a body is answered 500. *)
Example join_without_body :
  Sequential.handle (H := iso) (Sequential.Join 101 "1" None) Scenario.created
  = (Scenario.created, join_failed).
Proof. reflexivity. Qed.

Example create_match_half_a_player :
  code (snd (create_match (H := iso) 100
               {| b_location := b_location Scenario.turf;
                  b_date := b_date Scenario.turf; b_time := None;
                  b_playersNeeded := JS.JStr "0.5";
                  b_creator := b_creator Scenario.turf |} empty)) = 500.
Proof. reflexivity. Qed.

(** The reply to a creation shows the date and the time of the row,
    which are not the texts of the request. *)
Example create_match_stored_date :
  match body (snd (create_match (H := iso) 100 Scenario.turf empty)) with
  | Created c =>
      b_date Scenario.turf = Some "2026-02-25" /\
      c_date c = "2026-02-25T00:00:00.000Z" /\
      b_time Scenario.turf = Some "18:00" /\ c_time c = Some "18:00:00"
  | _ => False
  end.
Proof. by vm_compute. Qed.

(** ** The statements of the store *)

Section Statements.
Context `{Input}.

Lemma valid_empty : valid empty.
Proof.
  split; simpl; try (intros ? Hin; by apply elem_of_nil in Hin);
    try constructor; unfold INT4_MAX; lia.
Qed.

Lemma within_capacity_empty : within_capacity empty.
Proof. intros m Hin. by apply elem_of_nil in Hin. Qed.

Lemma omap_id_Some {A} (l : list A) : omap id (Some <$> l) = l.
Proof. induction l as [|x l IH]; [done |]. rewrite fmap_cons. simpl. by f_equal. Qed.

Lemma not_null_left_join m ps :
  not_null (left_join m ps) = filter (on_match (m_id m)) ps.
Proof.
  unfold not_null, left_join.
  destruct (filter (on_match (m_id m)) ps) as [|p l] eqn:E; [done |].
  apply omap_id_Some.
Qed.

Lemma count_left_join d m :
  count (left_join m (players d)) = player_count d (m_id m).
Proof. unfold count, player_count, players_of. by rewrite not_null_left_join. Qed.

Lemma filter_none {A} (P : A -> Prop) `{forall x, Decision (P x)} (l : list A) :
  (forall x, x ∈ l -> ~ P x) -> filter P l = [].
Proof.
  induction l as [|x l IH]; intros Hno; [done |].
  rewrite filter_cons_False by (apply Hno; left).
  apply IH. intros y Hy. apply Hno. by right.
Qed.

Lemma filter_has_id_unique ms m :
  NoDup (m_id <$> ms) -> m ∈ ms -> filter (has_id (m_id m)) ms = [m].
Proof.
  induction ms as [|x ms IH]; intros Hnd Hin; [by apply elem_of_nil in Hin |].
  rewrite fmap_cons in Hnd. apply NoDup_cons in Hnd as [Hx Hnd].
  apply elem_of_cons in Hin as [-> | Hin].
  - rewrite filter_cons_True by done. f_equal.
    apply filter_none. intros y Hy Heq. unfold has_id in Heq.
    apply Hx. rewrite <- Heq. by apply list_elem_of_fmap_2.
  - rewrite filter_cons_False; [by apply IH |].
    intros Heq. unfold has_id in Heq. apply Hx. rewrite Heq.
    by apply list_elem_of_fmap_2.
Qed.

Lemma filter_has_id_none ms i :
  (forall m, m ∈ ms -> m_id m <> i) -> filter (has_id i) ms = [].
Proof.
  intros Hno. apply filter_none. intros m Hm Heq. by apply (Hno m).
Qed.

Lemma filter_all {A} (P : A -> Prop) `{forall x, Decision (P x)} (l : list A) :
  Forall P l -> filter P l = l.
Proof.
  induction 1 as [|x l Hx _ IH]; [done |].
  rewrite filter_cons_True by done. by rewrite IH.
Qed.

Lemma length_filter_filter {A} (P Q : A -> Prop)
    `{forall x, Decision (P x)} `{forall x, Decision (Q x)} (l : list A) :
  (length (filter P (filter Q l)) <= length (filter P l))%nat.
Proof.
  induction l as [|x l IH]; [done |].
  destruct (decide (Q x)) as [HQ | HQ].
  - rewrite (filter_cons_True Q) by done.
    destruct (decide (P x)).
    + rewrite !(filter_cons_True P) by done. simpl. lia.
    + by rewrite !(filter_cons_False P) by done.
  - rewrite (filter_cons_False Q) by done.
    destruct (decide (P x)).
    + rewrite (filter_cons_True P) by done. simpl. lia.
    + by rewrite (filter_cons_False P) by done.
Qed.

Lemma valid_int4 d m : valid d -> m ∈ matches d -> int4 (m_id m) = true.
Proof.
  intros Hv Hm. pose proof (matches_serial d Hv m Hm). pose proof (matches_seq_range d Hv).
  unfold int4, INT4_MIN, INT4_MAX in *. apply andb_true_iff. split; apply Z.leb_le; lia.
Qed.

Lemma nextval_Some seq i :
  nextval seq = Some i -> seq < INT4_MAX /\ i = seq + 1.
Proof.
  unfold nextval. destruct (seq <? INT4_MAX) eqn:E; [|done].
  intros [= <-]. apply Z.ltb_lt in E. done.
Qed.

(** What an INSERT into [matches] can do: nothing but draw from the
    sequence, or add one row. *)
Lemma insert_match_outcome now l dt t pn cn cc d d' r :
  insert_match now l dt t pn cn cc d = (d', r) ->
  players d' = players d /\ players_id_seq d' = players_id_seq d /\
  ((matches d' = matches d /\ (exists e, r = inl e) /\
    (matches_id_seq d' = matches_id_seq d \/
     (matches_id_seq d < INT4_MAX /\ matches_id_seq d' = matches_id_seq d + 1)))
   \/ (exists m, r = inr [m] /\ matches d' = matches d ++ [m] /\
         m_id m = matches_id_seq d + 1 /\
         matches_id_seq d' = matches_id_seq d + 1 /\
         matches_id_seq d < INT4_MAX /\
         0 < m_players_needed m <= 20 /\
         (forall x, x ∈ matches d -> m_id x <> m_id m) /\
         integer_in pn = Some (m_players_needed m) /\
         m_created_at m = now)).
Proof.
  unfold insert_match. intros Hq.
  repeat case_match; simplify_eq; simpl; (split; [done |]); (split; [done |]);
    try (left; split; [done |]; split; [eauto |]; try (by left);
         match goal with
         | Hn : nextval _ = Some _ |- _ => apply nextval_Some in Hn as [? ->]; by right
         end).
  right. eexists. split; [done |]. simpl.
  match goal with
  | Hn : nextval _ = Some _ |- _ => apply nextval_Some in Hn as [? ->]
  end.
  repeat match goal with
  | Hb : negb _ = false |- _ => apply negb_false_iff in Hb
  | Hb : _ && _ = true |- _ => apply andb_true_iff in Hb as [? ?]
  | Hb : bool_decide _ = false |- _ => apply bool_decide_eq_false in Hb
  | Hb : (_ <? _) = true |- _ => apply Z.ltb_lt in Hb
  | Hb : (_ <=? _) = true |- _ => apply Z.leb_le in Hb
  end.
  repeat split; try done; try lia.
  intros x Hx Heq.
  match goal with
  | Hno : ~ Exists _ _ |- _ => apply Hno, Exists_exists; exists x; split; [done |]
  end.
  done.
Qed.

(** What an INSERT into [players] can do. *)
Lemma insert_player_outcome now mid n c d d' r :
  insert_player now mid n c d = (d', r) ->
  matches d' = matches d /\ matches_id_seq d' = matches_id_seq d /\
  ((players d' = players d /\ (exists e, r = inl e) /\
    (players_id_seq d' = players_id_seq d \/
     (players_id_seq d < INT4_MAX /\ players_id_seq d' = players_id_seq d + 1)))
   \/ (exists p i, r = inr tt /\ players d' = players d ++ [p] /\
         integer_in mid = Some i /\ p_match_id p = i /\
         varchar255 n = Some (p_name p) /\
         p_id p = players_id_seq d + 1 /\
         players_id_seq d' = players_id_seq d + 1 /\
         players_id_seq d < INT4_MAX /\
         (forall x, x ∈ players d -> ~ named i (p_name p) x) /\
         (exists m, m ∈ matches d /\ m_id m = i) /\
         p_joined_at p = now)).
Proof.
  unfold insert_player. intros Hq.
  repeat case_match; simplify_eq; simpl; (split; [done |]); (split; [done |]);
    try (left; split; [done |]; split; [eauto |]; try (by left);
         match goal with
         | Hn : nextval _ = Some _ |- _ => apply nextval_Some in Hn as [? ->]; by right
         end).
  right. eexists _, _. split; [done |]. simpl.
  match goal with
  | Hn : nextval _ = Some _ |- _ => apply nextval_Some in Hn as [? ->]
  end.
  repeat match goal with
  | Hb : bool_decide _ = false |- _ => apply bool_decide_eq_false in Hb
  | Hb : bool_decide _ = true |- _ => apply bool_decide_eq_true in Hb
  end.
  repeat split; try done.
  - intros x Hx Hnamed.
    match goal with
    | Hno : ~ Exists (named _ _) _ |- _ => apply Hno, Exists_exists; by exists x
    end.
  - match goal with
    | Hex : Exists (has_id _) _ |- _ => apply Exists_exists in Hex as (m & Hm & Hid)
    end.
    by exists m.
Qed.

Lemma NoDup_fmap_filter {A B} (f : A -> B) (P : A -> Prop)
    `{forall x, Decision (P x)} (l : list A) :
  NoDup (f <$> l) -> NoDup (f <$> filter P l).
Proof.
  induction l as [|x l IH]; [done |].
  rewrite fmap_cons. intros [Hx Hnd]%NoDup_cons.
  destruct (decide (P x)).
  - rewrite filter_cons_True by done. rewrite fmap_cons. apply NoDup_cons. split; [|by apply IH].
    intros (y & Hy & [_ Hin]%list_elem_of_filter)%list_elem_of_fmap_1.
    apply Hx. rewrite Hy. by apply list_elem_of_fmap_2.
  - rewrite filter_cons_False by done. by apply IH.
Qed.

(** Deleting players keeps the schema's constraints. *)
Lemma valid_filter_players d (P : player_row -> Prop) `{forall x, Decision (P x)} :
  valid d -> valid (set_players d (filter P (players d)) (players_id_seq d)).
Proof.
  intros Hv. destruct Hv. split; simpl; try done.
  - intros p [_ Hp]%list_elem_of_filter. auto.
  - by apply NoDup_fmap_filter.
  - intros p [_ Hp]%list_elem_of_filter. auto.
Qed.

Lemma valid_delete_player mid n d d' r :
  valid d -> delete_player mid n d = (d', r) -> valid d'.
Proof.
  unfold delete_player. intros Hv Hq.
  repeat case_match; simplify_eq; try done. by apply valid_filter_players.
Qed.

Lemma valid_delete_players_of mid d d' r :
  valid d -> delete_players_of mid d = (d', r) -> valid d'.
Proof.
  unfold delete_players_of. intros Hv Hq.
  repeat case_match; simplify_eq; try done. by apply valid_filter_players.
Qed.

Lemma valid_delete_match mid d d' r :
  valid d -> delete_match mid d = (d', r) -> valid d'.
Proof.
  unfold delete_match. intros Hv Hq.
  repeat case_match; simplify_eq; try done.
  destruct Hv. split; simpl; try done.
  - by apply NoDup_fmap_filter.
  - intros p [Hp Hin]%list_elem_of_filter.
    destruct (foreign_key0 p Hin) as (x & Hx & Hid).
    exists x. split; [|done]. apply list_elem_of_filter. split; [|done].
    unfold has_id, on_match in *. congruence.
  - by apply NoDup_fmap_filter.
  - intros x [_ Hx]%list_elem_of_filter. auto.
  - intros x [_ Hx]%list_elem_of_filter. auto.
  - intros x [_ Hx]%list_elem_of_filter. auto.
Qed.

Lemma valid_insert_match now l dt t pn cn cc d d' r :
  valid d -> insert_match now l dt t pn cn cc d = (d', r) -> valid d'.
Proof.
  intros Hv Hq. apply insert_match_outcome in Hq as (Hps & Hpseq & Hcase).
  destruct Hv.
  destruct Hcase as [(Hms & _ & Hseq) | (m & _ & Hms & Hid & Hseq & Hlt & Hpn & Hfresh & _)];
    split; rewrite ?Hps, ?Hpseq, ?Hms; try done.
  - intros x Hx. specialize (matches_serial0 x Hx). destruct Hseq as [-> | [_ ->]]; lia.
  - destruct Hseq as [-> | [? ->]]; lia.
  - rewrite fmap_app. apply NoDup_app. split; [done |]. split; [|apply NoDup_singleton].
    intros i (x & -> & Hx)%list_elem_of_fmap_1 Hin.
    simpl in Hin. apply list_elem_of_singleton in Hin. by apply (Hfresh x).
  - intros p Hp. destruct (foreign_key0 p Hp) as (x & Hx & Hxid).
    exists x. split; [|done]. apply elem_of_app. by left.
  - intros x [Hx | ->%list_elem_of_singleton]%elem_of_app; auto.
  - intros x [Hx | ->%list_elem_of_singleton]%elem_of_app.
    + specialize (matches_serial0 x Hx). lia.
    + lia.
  - lia.
Qed.

Lemma valid_insert_player now mid n c d d' r :
  valid d -> insert_player now mid n c d = (d', r) -> valid d'.
Proof.
  intros Hv Hq. apply insert_player_outcome in Hq as (Hms & Hmseq & Hcase).
  destruct Hv.
  destruct Hcase as [(Hps & _ & Hseq)
    | (p & i & _ & Hps & Hint & Hmid & Hname & Hid & Hseq & Hlt & Hfresh & Hfk & _)];
    split; rewrite ?Hps, ?Hmseq, ?Hms; try done.
  - intros x Hx. specialize (players_serial0 x Hx). destruct Hseq as [-> | [_ ->]]; lia.
  - destruct Hseq as [-> | [? ->]]; lia.
  - intros x [Hx | ->%list_elem_of_singleton]%elem_of_app; [auto |].
    destruct Hfk as (m & Hm & Hmi). exists m. split; [done | congruence].
  - rewrite fmap_app. apply NoDup_app. split; [done |]. split; [|apply NoDup_singleton].
    intros k (x & -> & Hx)%list_elem_of_fmap_1 Hin.
    simpl in Hin. apply list_elem_of_singleton in Hin.
    apply (Hfresh x Hx). unfold key in Hin. unfold named. by simplify_eq.
  - intros x [Hx | ->%list_elem_of_singleton]%elem_of_app.
    + specialize (players_serial0 x Hx). lia.
    + lia.
  - lia.
Qed.

Lemma integer_in_Some v i : integer_in v = Some i -> v = Some i /\ int4 i = true.
Proof.
  unfold integer_in. destruct v as [z|]; [|done].
  destruct (int4 z) eqn:E; [|done]. by intros [= <-].
Qed.

Lemma integer_in_valid d m : valid d -> m ∈ matches d -> integer_in (Some (m_id m)) = Some (m_id m).
Proof. intros Hv Hm. unfold integer_in. by rewrite (valid_int4 d m). Qed.

Lemma named_exists_filter i n (ps : list player_row) :
  (0 <? length (filter (named i n) ps))%nat = bool_decide (Exists (named i n) ps).
Proof.
  destruct (filter (named i n) ps) as [|p l] eqn:E; simpl.
  - symmetry. apply bool_decide_eq_false. intros (x & Hx & Hn)%Exists_exists.
    by apply (filter_nil_not_elem_of _ _ x E).
  - symmetry. apply bool_decide_eq_true, Exists_exists. exists p.
    assert (Hp : p ∈ filter (named i n) ps) by (rewrite E; left).
    apply list_elem_of_filter in Hp as [? ?]. done.
Qed.

End Statements.

Ltac run_handler :=
  unfold try_catch, mbind, mret, query_bind, query_ret, bind, ret, throw.

Section Join.
Context `{Input}.

(** Join, case by case. *)
Lemma join_spec now id b d :
  join now id b d =
    if negb (JS.present (jb_name b)) || negb (JS.present (jb_contact b))
    then (d, reply 400 (Error "Name and contact required"))
    else
      match integer_in (JS.parseInt id) with
      | None => (d, join_failed)
      | Some i =>
          match filter (has_id i) (matches d) with
          | [] => (d, match_not_found)
          | m :: _ =>
              if m_players_needed m <=? player_count d i then (d, full)
              else if negb (text_in (text (jb_name b))) then (d, join_failed)
              else if bool_decide (Exists (named i (text (jb_name b))) (players d))
              then (d, duplicate_member)
              else
                match insert_player now (Some i) (text (jb_name b))
                        (text (jb_contact b)) d with
                | (d', inl _) => (d', join_failed)
                | (d', inr _) => (d', reply 200 (Row (build_aggregate (players d') m)))
                end
          end
      end.
Proof.
  unfold join. run_handler.
  destruct (negb (JS.present (jb_name b)) || negb (JS.present (jb_contact b))); [done |].
  unfold select_match_count.
  destruct (integer_in (JS.parseInt id)) as [i|] eqn:Hi; [|done].
  apply integer_in_Some in Hi as Hp. destruct Hp as [Hp Hrange].
  destruct (filter (has_id i) (matches d)) as [|m ms] eqn:Hf; [done |].
  assert (Hm : m ∈ filter (has_id i) (matches d)) by (rewrite Hf; left).
  apply list_elem_of_filter in Hm as [Hid Hm]. unfold has_id in Hid. subst i.
  simpl. rewrite count_left_join.
  destruct (m_players_needed m <=? player_count d (m_id m)); [done |].
  unfold select_player. rewrite Hi.
  destruct (text_in (text (jb_name b))); [|done]. simpl.
  rewrite named_exists_filter.
  destruct (bool_decide (Exists (named (m_id m) (text (jb_name b))) (players d))); [done |].
  rewrite Hp in Hi |- *.
  destruct (insert_player now (Some (m_id m)) (text (jb_name b)) (text (jb_contact b)) d)
    as [d' [e|[]]] eqn:Hins; [done |].
  apply insert_player_outcome in Hins as (Hms & _ & _).
  unfold select_aggregate. rewrite Hi, Hms, Hf. done.
Qed.

End Join.

(** ** Every handler keeps the constraints and the capacity *)

Section Invariant.
Context `{Input}.

Lemma player_count_same d d' i : players d' = players d -> player_count d' i = player_count d i.
Proof. unfold player_count, players_of. by intros ->. Qed.

Lemma player_count_filter d d' (P : player_row -> Prop) `{forall x, Decision (P x)} i :
  players d' = filter P (players d) -> player_count d' i <= player_count d i.
Proof.
  unfold player_count, players_of. intros ->.
  apply inj_le. apply length_filter_filter.
Qed.

Lemma player_count_insert d d' p i :
  players d' = players d ++ [p] ->
  player_count d' i = player_count d i + (if decide (p_match_id p = i) then 1 else 0).
Proof.
  unfold player_count, players_of. intros ->. rewrite filter_app, length_app.
  unfold on_match at 2. rewrite filter_singleton; [|exact (players d)].
  unfold on_match. destruct (decide (p_match_id p = i)); simpl; lia.
Qed.

Lemma within_capacity_shrink d d' :
  within_capacity d ->
  (forall m, m ∈ matches d' -> m ∈ matches d) ->
  (forall i, player_count d' i <= player_count d i) ->
  within_capacity d'.
Proof.
  intros Hc Hms Hps m Hm. specialize (Hc m (Hms m Hm)). specialize (Hps (m_id m)). lia.
Qed.

Lemma no_players_on_fresh d i :
  valid d -> (forall x, x ∈ matches d -> m_id x <> i) -> player_count d i = 0.
Proof.
  intros Hv Hfresh. unfold player_count, players_of.
  rewrite filter_none; [done |].
  intros p Hp Hon. destruct (foreign_key d Hv p Hp) as (x & Hx & Hid).
  apply (Hfresh x Hx). unfold on_match in Hon. congruence.
Qed.

Lemma invariant_empty : invariant empty.
Proof. split; [apply valid_empty | apply within_capacity_empty]. Qed.

Lemma list_matches_store d : fst (list_matches d) = d.
Proof. done. Qed.

Lemma get_match_store id d : fst (get_match id d) = d.
Proof.
  unfold get_match. run_handler. unfold select_aggregate.
  destruct (integer_in (JS.parseInt id)); [|done].
  by destruct (first _).
Qed.

Lemma create_match_invariant now b d : invariant d -> invariant (fst (create_match now b d)).
Proof.
  intros [Hv Hc]. unfold create_match. run_handler.
  destruct (_ || _); [done |].
  destruct (insert_match _ _ _ _ _ _ _ d) as [d' r] eqn:Hins.
  assert (Hv' : valid d') by (by eapply valid_insert_match).
  apply insert_match_outcome in Hins as (Hps & _ & Hcase).
  assert (invariant d') as Hinv; [|by destruct r as [e|rows]; [|destruct (first rows)]].
  split; [done |].
  destruct Hcase as [(Hms & _) | (m & _ & Hms & _ & _ & _ & Hpn & Hfresh & _)].
  - apply (within_capacity_shrink d); [done | by rewrite Hms |].
    intros i. by rewrite (player_count_same d d').
  - intros x. rewrite Hms. rewrite (player_count_same d d') by done.
    intros [Hx | ->%list_elem_of_singleton]%elem_of_app; [by apply Hc |].
    rewrite (no_players_on_fresh d); [lia | done | done].
Qed.

Lemma join_invariant now id b d : invariant d -> invariant (fst (join now id b d)).
Proof.
  intros [Hv Hc]. rewrite join_spec.
  destruct (_ || _); [done |].
  destruct (integer_in (JS.parseInt id)) as [i|]; [|done].
  destruct (filter (has_id i) (matches d)) as [|m ms] eqn:Hf; [done |].
  destruct (m_players_needed m <=? player_count d i) eqn:Hfull; [done |].
  destruct (negb _); [done |].
  destruct (bool_decide _); [done |].
  destruct (insert_player _ _ _ _ d) as [d' r] eqn:Hins.
  assert (Hv' : valid d') by (by eapply valid_insert_player).
  apply insert_player_outcome in Hins as (Hms & _ & Hcase).
  assert (invariant d') as Hinv; [|by destruct r as [e|[]]].
  split; [done |].
  destruct Hcase as [(Hps & _) | (p & j & _ & Hps & Hint & Hmid & _)].
  - apply (within_capacity_shrink d); [done | by rewrite Hms |].
    intros k. by rewrite (player_count_same d d').
  - simpl in Hint. destruct (int4 i); [|done]. simplify_eq.
    intros x. rewrite Hms. intros Hx.
    rewrite (player_count_insert d d' p) by done.
    destruct (decide (p_match_id p = m_id x)) as [Heq | Hne]; [|specialize (Hc x Hx); lia].
    apply Z.leb_gt in Hfull. rewrite Heq in Hf, Hfull.
    rewrite (filter_has_id_unique (matches d) x) in Hf; [|by destruct Hv | done].
    simplify_eq. lia.
Qed.

Lemma leave_invariant id n d : invariant d -> invariant (fst (leave id n d)).
Proof.
  intros [Hv Hc]. unfold leave. run_handler.
  destruct (negb _); [done |].
  destruct (delete_player _ _ d) as [d' r] eqn:Hdel.
  assert (Hv' : valid d') by (by eapply valid_delete_player).
  assert (invariant d') as Hinv; [|by destruct r as [e|rows]; [|destruct (length rows =? 0)%nat]].
  split; [done |].
  unfold delete_player in Hdel. repeat case_match; simplify_eq; try done.
  apply (within_capacity_shrink d); [done | done |].
  intros i. by eapply player_count_filter.
Qed.

Lemma delete_invariant id d : invariant d -> invariant (fst (delete id d)).
Proof.
  intros [Hv Hc]. unfold delete. run_handler.
  destruct (delete_players_of _ d) as [d1 r1] eqn:Hdel1.
  assert (Hv1 : valid d1) by (by eapply valid_delete_players_of).
  assert (Hc1 : within_capacity d1).
  { unfold delete_players_of in Hdel1. repeat case_match; simplify_eq; try done.
    apply (within_capacity_shrink d); [done | done |].
    intros i. by eapply player_count_filter. }
  destruct r1 as [e|[]]; [done |].
  destruct (delete_match _ d1) as [d2 r2] eqn:Hdel2.
  assert (Hv2 : valid d2) by (by eapply valid_delete_match).
  assert (invariant d2) as Hinv; [|by destruct r2 as [e|rows]; [|destruct (length rows =? 0)%nat]].
  split; [done |].
  unfold delete_match in Hdel2. repeat case_match; simplify_eq; try done.
  apply (within_capacity_shrink d1); [done | |].
  - simpl. by intros x [_ Hx]%list_elem_of_filter.
  - intros i. by eapply player_count_filter.
Qed.

Lemma handle_invariant r d : invariant d -> invariant (fst (Sequential.handle r d)).
Proof.
  destruct r as [| id | now [b|] | now id [b|] | id [b|] | id];
    unfold Sequential.handle, with_body.
  - by rewrite list_matches_store.
  - by rewrite get_match_store.
  - apply create_match_invariant.
  - done.
  - apply join_invariant.
  - done.
  - apply leave_invariant.
  - done.
  - apply delete_invariant.
Qed.

Lemma run_all_invariant rs d : invariant d -> invariant (Sequential.run_all rs d).
Proof.
  revert d. induction rs as [|r rs IH]; intros d Hinv; [done |].
  simpl. apply IH. by apply handle_invariant.
Qed.

End Invariant.

(** ** Aggregates *)

Section Aggregates.

Lemma players_json_build ps m :
  players_json (build_aggregate ps m)
  = Some (build_player <$> merge_sort joined_le (filter (on_match (m_id m)) ps)).
Proof.
  unfold build_aggregate. simpl. rewrite not_null_left_join. unfold json_agg.
  by destruct (filter (on_match (m_id m)) ps).
Qed.

Lemma build_aggregate_within_capacity d m :
  within_capacity d -> m ∈ matches d ->
  aggregate_within_capacity (build_aggregate (players d) m).
Proof.
  intros Hc Hm. eexists. split; [apply players_json_build |].
  rewrite length_fmap, (Permutation_length (merge_sort_Permutation _ _)).
  apply (Hc m Hm).
Qed.

Lemma list_matches_rows d :
  list_matches d
  = (d, reply 200 (Rows (merge_sort newer (build_aggregate (players d) <$> matches d)))).
Proof. done. Qed.

Lemma elem_of_list_matches d a :
  a ∈ merge_sort newer (build_aggregate (players d) <$> matches d)
  <-> exists m, a = build_aggregate (players d) m /\ m ∈ matches d.
Proof. rewrite merge_sort_Permutation. apply list_elem_of_fmap. Qed.

Lemma get_match_row id d a :
  snd (get_match id d) = reply 200 (Row a) ->
  exists i m, integer_in (JS.parseInt id) = Some i /\ m ∈ matches d /\ m_id m = i /\
              a = build_aggregate (players d) m.
Proof.
  unfold get_match. run_handler. unfold select_aggregate.
  destruct (integer_in (JS.parseInt id)) as [i|]; [|done].
  destruct (filter (has_id i) (matches d)) as [|m ms] eqn:Hf; [done |].
  simpl. intros [= <-].
  assert (Hm : m ∈ filter (has_id i) (matches d)) by (rewrite Hf; left).
  apply list_elem_of_filter in Hm as [Hid Hm]. by exists i, m.
Qed.

End Aggregates.

(** ** Capacity *)

Section Capacity.
Context `{Input}.

Lemma join_success_inv now id b d d1 a :
  join now id b d = (d1, reply 200 (Row a)) ->
  exists i m ms,
    integer_in (JS.parseInt id) = Some i /\
    JS.present (jb_name b) = true /\ JS.present (jb_contact b) = true /\
    filter (has_id i) (matches d) = m :: ms /\
    player_count d i < m_players_needed m /\
    text_in (text (jb_name b)) = true /\
    insert_player now (Some i) (text (jb_name b)) (text (jb_contact b)) d = (d1, inr tt) /\
    a = build_aggregate (players d1) m.
Proof.
  rewrite join_spec.
  destruct (JS.present (jb_name b)); [|done].
  destruct (JS.present (jb_contact b)); [|done]. cbn [negb orb].
  destruct (integer_in (JS.parseInt id)) as [i|]; [|done].
  destruct (filter (has_id i) (matches d)) as [|m ms] eqn:Hf; [done |].
  destruct (m_players_needed m <=? player_count d i) eqn:Hfull; [done |].
  destruct (text_in (text (jb_name b))); [|done]. cbn [negb].
  destruct (bool_decide _); [done |].
  destruct (insert_player _ _ _ _ d) as [d' [e|[]]] eqn:Hins; [done |].
  intros [= <- <-]. apply Z.leb_gt in Hfull. by exists i, m, ms.
Qed.

Lemma aggregates_within_capacity_of d :
  invariant d -> aggregates_within_capacity d.
Proof.
  intros [Hv Hc]. split; [|split].
  - intros l a. rewrite list_matches_rows. simpl. intros [= <-].
    intros (m & -> & Hm)%elem_of_list_matches. by apply build_aggregate_within_capacity.
  - intros id a (i & m & _ & Hm & _ & ->)%get_match_row.
    by apply build_aggregate_within_capacity.
  - intros now id b a Hjoin.
    destruct (join now id b d) as [d1 r] eqn:Hj. simpl in Hjoin. subst r.
    pose proof (join_invariant now id b d (conj Hv Hc)) as [_ Hc1].
    rewrite Hj in Hc1. simpl in Hc1.
    apply join_success_inv in Hj as (i & m & ms & _ & _ & _ & Hf & _ & _ & Hins & ->).
    apply insert_player_outcome in Hins as (Hms & _).
    apply build_aggregate_within_capacity; [done |].
    rewrite Hms.
    assert (Hm : m ∈ filter (has_id i) (matches d)) by (rewrite Hf; left).
    by apply list_elem_of_filter in Hm as [_ Hm].
Qed.

Lemma join_full now id b d m :
  valid d ->
  JS.present (jb_name b) = true -> JS.present (jb_contact b) = true ->
  JS.parseInt id = Some (m_id m) -> m ∈ matches d ->
  m_players_needed m <= player_count d (m_id m) ->
  join now id b d = (d, full).
Proof.
  intros Hv Hn Hc Hid Hm Hfull. rewrite join_spec, Hn, Hc, Hid.
  rewrite (integer_in_valid d m) by done. cbn [negb orb].
  rewrite filter_has_id_unique; [|by destruct Hv | done].
  apply Z.leb_le in Hfull. by rewrite Hfull.
Qed.

(** C1, amended. Capacity invariant for requests handled one after
    the other: after any sequence of CreateMatch, Join, Leave and
    DeleteMatch requests (and reads), each run to its end before the
    next starts, from a store that keeps the schema's constraints and
    is within capacity, no match has more players than
    [playersNeeded], no aggregate returned by ListMatches, GetMatch or
    a Join lists more players than that, and Join on a match whose
    count has reached its quota is refused with Full.  Joins whose
    statements interleave are not covered: they can exceed the
    quota. *)
Theorem capacity_invariant (rs : list Sequential.request) (d : db) :
  valid d -> within_capacity d ->
  let d' := Sequential.run_all rs d in
  within_capacity d' /\ aggregates_within_capacity d' /\ full_is_refused d'.
Proof.
  intros Hv Hc d'.
  destruct (run_all_invariant rs d (conj Hv Hc)) as [Hv' Hc']. fold d' in Hv', Hc'.
  split; [done |]. split; [by apply aggregates_within_capacity_of |].
  intros now id b m Hn Hct Hid Hm Hfull. by apply (join_full now id b d' m).
Qed.

End Capacity.

(** On the scenario, from the empty store. *)
Lemma capacity_invariant_witness :
  valid empty /\ within_capacity empty /\
  let d' := Sequential.run_all (H := iso) Scenario.requests empty in
  within_capacity d' /\ aggregates_within_capacity (H := iso) d'
  /\ full_is_refused (H := iso) d'.
Proof.
  split; [exact valid_empty |]. split; [exact within_capacity_empty |].
  exact (capacity_invariant (H := iso) Scenario.requests empty
           valid_empty within_capacity_empty).
Defined.

(** ** Joining twice *)

Section JoinTwice.
Context `{Input}.

Lemma varchar255_fits s : (utf8_length s <= 255)%nat -> varchar255 s = Some s.
Proof. intros Hs. unfold varchar255. apply Nat.leb_le in Hs. by rewrite Hs. Qed.

(** Join for a name the match already has: Full when the match has
    all its players, DuplicateMember otherwise; the store stays as it
    is. *)
Lemma join_recorded now id b d mid p :
  valid d -> JS.parseInt id = Some mid ->
  p ∈ players d -> named mid (text (jb_name b)) p ->
  JS.present (jb_name b) = true -> JS.present (jb_contact b) = true ->
  text_in (text (jb_name b)) = true ->
  exists m, m ∈ matches d /\ m_id m = mid /\
    join now id b d =
      (d, if bool_decide (m_players_needed m <= player_count d mid)
          then full else duplicate_member).
Proof.
  intros Hv Hid Hp Hnamed Hn Hc Ht.
  destruct (foreign_key d Hv p Hp) as (m & Hm & Hmid).
  destruct Hnamed as [Hpm Hpn]. exists m. split; [done |]. split; [congruence |].
  assert (mid = m_id m) as -> by congruence.
  rewrite join_spec, Hn, Hc, Hid, Ht.
  rewrite (integer_in_valid d m) by done. cbn [negb orb].
  rewrite filter_has_id_unique; [|by destruct Hv | done].
  destruct (Z.leb_spec (m_players_needed m) (player_count d (m_id m))).
  - by rewrite (bool_decide_eq_true_2 (m_players_needed m <= _)).
  - rewrite (bool_decide_eq_false_2 (m_players_needed m <= _)) by lia.
    rewrite bool_decide_eq_true_2; [done |].
    apply Exists_exists. exists p. split; [done |]. by split.
Qed.

(** C2, amended. Once Join(matchId, name, contact) has succeeded, the
    (matchId, name) row is recorded, and as long as it is, every Join
    with the same (matchId, name) fails and leaves the store as it is,
    so there is never a second row for the pair: it fails with Full
    when the match has reached its quota (the capacity check comes
    first), and with DuplicateMember otherwise. *)
Theorem join_again_refused now id b d d1 a :
  valid d ->
  (utf8_length (text (jb_name b)) <= 255)%nat ->
  join now id b d = (d1, reply 200 (Row a)) ->
  exists mid p,
    JS.parseInt id = Some mid /\ p ∈ players d1 /\
    named mid (text (jb_name b)) p /\ valid d1 /\
    forall d2 now' b',
      valid d2 ->
      (exists p', p' ∈ players d2 /\ named mid (text (jb_name b)) p') ->
      jb_name b' = jb_name b -> JS.present (jb_contact b') = true ->
      exists m, m ∈ matches d2 /\ m_id m = mid /\
        join now' id b' d2 =
          (d2, if bool_decide (m_players_needed m <= player_count d2 mid)
               then full else duplicate_member).
Proof.
  intros Hv Hlen Hjoin.
  apply join_success_inv in Hjoin
    as (i & m & ms & Hint & Hn & Hc & Hf & Hroom & Ht & Hins & ->).
  apply integer_in_Some in Hint as [Hid _].
  assert (Hv1 : valid d1) by (by eapply valid_insert_player).
  apply insert_player_outcome in Hins as (_ & _ & [(_ & [e He] & _) | Hok]); [done |].
  destruct Hok as (p & j & _ & Hps & Hint & Hmid & Hname & _).
  apply integer_in_Some in Hint as [[= <-] _].
  rewrite varchar255_fits in Hname by done. injection Hname as Hname.
  exists i, p. split; [done |]. split; [rewrite Hps; apply elem_of_app; right; left |].
  split; [by split |]. split; [done |].
  intros d2 now' b' Hv2 (p' & Hp' & Hnamed') Hsame Hc'.
  apply (join_recorded now' id b' d2 i p'); try done; by rewrite Hsame.
Qed.

End JoinTwice.

(** On the scenario: A joins the new match, and joins again. *)
Lemma join_again_refused_witness :
  valid Scenario.created /\
  (utf8_length (text (jb_name Scenario.A)) <= 255)%nat /\
  exists d1 a,
    join (H := iso) 101 "1" Scenario.A Scenario.created = (d1, reply 200 (Row a)) /\
    exists mid p,
      JS.parseInt "1" = Some mid /\ p ∈ players d1 /\
      named mid (text (jb_name Scenario.A)) p /\ valid d1 /\
      forall d2 now' b',
        valid d2 ->
        (exists p', p' ∈ players d2 /\ named mid (text (jb_name Scenario.A)) p') ->
        jb_name b' = jb_name Scenario.A -> JS.present (jb_contact b') = true ->
        exists m, m ∈ matches d2 /\ m_id m = mid /\
          join (H := iso) now' "1" b' d2 =
            (d2, if bool_decide (m_players_needed m <= player_count d2 mid)
                 then full else duplicate_member).
Proof.
  assert (Hv : valid Scenario.created).
  { apply (create_match_invariant (H := iso) 100 Scenario.turf empty invariant_empty). }
  split; [exact Hv |]. split; [vm_compute; lia |].
  eexists _, _. split; [vm_compute; reflexivity |].
  eapply (join_again_refused (H := iso) 101 "1" Scenario.A Scenario.created).
  - exact Hv.
  - vm_compute. lia.
  - vm_compute. reflexivity.
Defined.

(** C2 as stated fails: on a match that needs one player, the second
    Join of the same name is refused with Full, not with
    DuplicateMember. *)
Lemma join_again_full_not_duplicate :
  exists d1 a,
    join (H := iso) 101 "1" Scenario.A Scenario.created = (d1, reply 200 (Row a)) /\
    join (H := iso) 102 "1" Scenario.A d1 = (d1, full) /\
    full <> duplicate_member.
Proof.
  eexists _, _. split; [vm_compute; reflexivity |]. split; [vm_compute; reflexivity |].
  discriminate.
Qed.

(** ** Requests the store takes as they are *)

Section Accepted.
Context `{Input}.

Lemma nextval_below seq : seq < INT4_MAX -> nextval seq = Some (seq + 1).
Proof. intros Hlt. unfold nextval. apply Z.ltb_lt in Hlt. by rewrite Hlt. Qed.

Lemma fits_varchar255 s : fits s = true -> varchar255 s = Some s.
Proof. unfold fits. intros Hs. apply varchar255_fits. by apply Nat.leb_le. Qed.

Lemma fresh_match_id d :
  valid d -> bool_decide (Exists (has_id (matches_id_seq d + 1)) (matches d)) = false.
Proof.
  intros Hv. apply bool_decide_eq_false. intros (m & Hm & Hid)%Exists_exists.
  pose proof (matches_serial d Hv m Hm). unfold has_id in Hid. lia.
Qed.

Lemma fresh_player_id d :
  valid d -> bool_decide (Exists (has_player_id (players_id_seq d + 1)) (players d)) = false.
Proof.
  intros Hv. apply bool_decide_eq_false. intros (p & Hp & Hid)%Exists_exists.
  pose proof (players_serial d Hv p Hp). unfold has_player_id in Hid. lia.
Qed.

Lemma create_match_accepted now b n d :
  valid d -> matches_id_seq d < INT4_MAX ->
  provided b = true -> storable b = true ->
  JS.parseInt_value (b_playersNeeded b) = Some n -> 0 < n <= 20 ->
  create_match now b d
  = (set_matches d (matches d ++ [new_match now b n d]) (matches_id_seq d + 1),
     reply 200 (Created (format (new_match now b n d)))).
Proof.
  intros Hv Hseq Hp Hs Hn Hrange.
  unfold provided in Hp. unfold storable in Hs.
  repeat match goal with
  | Hb : _ && _ = true |- _ => apply andb_true_iff in Hb as [? ?]
  end.
  repeat match goal with
  | Hb : bool_decide (is_Some _) = true |- _ => apply bool_decide_eq_true in Hb as [? Hb]
  end.
  unfold create_match. run_handler.
  repeat match goal with
  | Hb : JS.present _ = true |- _ => rewrite Hb
  | Hb : JS.truthy _ = true |- _ => rewrite Hb
  | Hb : negb (creator_missing _) = true |- _ => apply negb_true_iff in Hb; rewrite Hb
  end.
  cbn [negb orb]. unfold insert_match, new_match, stored_date, stored_time.
  repeat match goal with
  | Hb : text_in _ = true |- _ => rewrite Hb
  | Hb : date_in _ = Some _ |- _ => rewrite Hb
  | Hb : time_param _ = Some _ |- _ => rewrite Hb
  | Hb : fits _ = true |- _ => rewrite (fits_varchar255 _ Hb)
  end.
  cbn [negb andb]. rewrite Hn.
  assert (int4 n = true) as Hint.
  { unfold int4, INT4_MIN, INT4_MAX. apply andb_true_iff. split; apply Z.leb_le; lia. }
  unfold integer_in. rewrite Hint. rewrite nextval_below by done.
  assert ((0 <? n) && (n <=? 20) = true) as ->.
  { apply andb_true_iff. split; [apply Z.ltb_lt | apply Z.leb_le]; lia. }
  cbn [negb]. rewrite fresh_match_id by done. done.
Qed.

Lemma join_accepted now id b d m :
  valid d -> players_id_seq d < INT4_MAX ->
  joinable b = true ->
  JS.parseInt id = Some (m_id m) -> m ∈ matches d ->
  player_count d (m_id m) < m_players_needed m ->
  (forall p, p ∈ players d -> ~ named (m_id m) (text (jb_name b)) p) ->
  let d' := set_players d (players d ++ [new_player now (m_id m) b d])
                        (players_id_seq d + 1) in
  join now id b d = (d', reply 200 (Row (build_aggregate (players d') m))).
Proof.
  intros Hv Hseq Hb Hid Hm Hroom Hnew d'.
  unfold joinable in Hb.
  repeat match goal with
  | Hb : _ && _ = true |- _ => apply andb_true_iff in Hb as [? ?]
  end.
  rewrite join_spec.
  repeat match goal with
  | Hb : JS.present _ = true |- _ => rewrite Hb
  end.
  rewrite Hid, (integer_in_valid d m) by done. cbn [negb orb].
  rewrite filter_has_id_unique; [|by destruct Hv | done].
  apply Z.leb_gt in Hroom. rewrite Hroom.
  assert (text_in (text (jb_name b)) = true) as Htn by done. rewrite Htn. cbn [negb].
  rewrite bool_decide_eq_false_2.
  2:{ intros (p & Hp & Hnamed)%Exists_exists. by apply (Hnew p). }
  unfold insert_player. rewrite (integer_in_valid d m) by done.
  repeat match goal with
  | Hb : text_in _ = true |- _ => rewrite Hb
  | Hb : fits _ = true |- _ => rewrite (fits_varchar255 _ Hb)
  end.
  cbn [negb andb]. rewrite nextval_below by done.
  rewrite fresh_player_id by done.
  rewrite bool_decide_eq_false_2.
  2:{ intros (p & Hp & Hnamed)%Exists_exists. by apply (Hnew p). }
  rewrite bool_decide_eq_true_2; [done |].
  apply Exists_exists. by exists m.
Qed.

(** Leave, case by case. *)
Lemma leave_spec id n d :
  leave id n d =
    if negb (JS.present n) then (d, reply 400 (Error "Name required"))
    else
      match integer_in (JS.parseInt id) with
      | None => (d, reply 500 (Error "Failed to leave match"))
      | Some i =>
          if text_in (text n) then
            (set_players d (filter (fun p => ~ named i (text n) p) (players d))
                         (players_id_seq d),
             if bool_decide (Exists (named i (text n)) (players d))
             then reply 200 (Message "Left match successfully")
             else player_not_found)
          else (d, reply 500 (Error "Failed to leave match"))
      end.
Proof.
  unfold leave. run_handler.
  destruct (negb (JS.present n)); [done |].
  unfold delete_player.
  destruct (integer_in (JS.parseInt id)) as [i|]; [|done].
  destruct (text_in (text n)); [|done].
  rewrite <- named_exists_filter.
  by destruct (filter (named i (text n)) (players d)).
Qed.

End Accepted.

(** ** One seat, two players *)

Section OneSeat.
Context `{Input}.

Lemma create_match_valid now b d : valid d -> valid (fst (create_match now b d)).
Proof.
  intros Hv. unfold create_match. run_handler.
  destruct (_ || _); [done |].
  destruct (insert_match _ _ _ _ _ _ _ d) as [d' r] eqn:Hins.
  assert (Hv' : valid d') by (by eapply valid_insert_match).
  by destruct r as [e|rows]; [|destruct (first rows)].
Qed.

Lemma join_valid now id b d : valid d -> valid (fst (join now id b d)).
Proof.
  intros Hv. rewrite join_spec.
  repeat case_match; simpl; try done; by eapply valid_insert_player.
Qed.

Lemma leave_valid id n d : valid d -> valid (fst (leave id n d)).
Proof.
  intros Hv. rewrite leave_spec.
  repeat case_match; simpl; try done; by apply valid_filter_players.
Qed.

Lemma filter_on_match_snoc ps q i :
  (forall p, p ∈ ps -> p_match_id p <> i) -> p_match_id q = i ->
  filter (on_match i) (ps ++ [q]) = [q].
Proof.
  intros Hnone Hq. rewrite filter_app, filter_none by (intros p Hp; by apply Hnone).
  by rewrite filter_cons_True.
Qed.

Lemma filter_not_named_snoc ps q i n :
  (forall p, p ∈ ps -> p_match_id p <> i) -> named i n q ->
  filter (fun p => ~ named i n p) (ps ++ [q]) = ps.
Proof.
  intros Hnone Hq. rewrite filter_app.
  rewrite (filter_all _ ps).
  2:{ apply Forall_forall. intros p Hp [Hpi _]. by apply (Hnone p). }
  rewrite filter_cons_False by (intros Hn; by apply Hn).
  by rewrite app_nil_r.
Qed.

Lemma merge_sort_singleton {A} (R : relation A) `{forall x y, Decision (R x y)} (x : A) :
  merge_sort R [x] = [x].
Proof. done. Qed.

(** The first Join of a match nobody has joined. *)
Lemma join_first now id b d m :
  valid d -> players_id_seq d < INT4_MAX -> joinable b = true ->
  JS.parseInt id = Some (m_id m) -> m ∈ matches d ->
  (forall p, p ∈ players d -> p_match_id p <> m_id m) ->
  let pa := new_player now (m_id m) b d in
  let d' := set_players d (players d ++ [pa]) (players_id_seq d + 1) in
  join now id b d = (d', reply 200 (Row (build_aggregate (players d') m))) /\
  players_json (build_aggregate (players d') m) = Some [build_player pa] /\
  player_count d' (m_id m) = 1.
Proof.
  intros Hv Hseq Hb Hid Hm Hnone pa d'.
  assert (Hcount : player_count d (m_id m) = 0).
  { unfold player_count, players_of. by rewrite filter_none. }
  split; [|split].
  - apply join_accepted; try done.
    + rewrite Hcount. apply (check_players_needed d Hv m Hm).
    + intros p Hp [Hpm _]. by apply (Hnone p).
  - rewrite players_json_build. simpl. by rewrite filter_on_match_snoc.
  - unfold player_count, players_of. simpl. by rewrite filter_on_match_snoc.
Qed.

(** C4. The scenario, from any store that keeps the schema's
    constraints and has ids left: a creation whose [playersNeeded]
    reads 1 returns the new match with no player; then Join("A")
    succeeds, Join("B") fails with Full, Leave("A") succeeds, and
    Join("B") succeeds; after the Leave, Join("A") would succeed as
    well.  A and B are any two bodies with different names that the
    store takes as they are. *)
Theorem one_seat_scenario now0 now1 now2 now3 (body : create_body) (a b : join_body) d :
  valid d -> matches_id_seq d < INT4_MAX -> players_id_seq d + 1 < INT4_MAX ->
  provided body = true -> storable body = true ->
  JS.in_model (b_playersNeeded body) ->
  JS.parseInt_value (b_playersNeeded body) = Some 1 ->
  joinable a = true -> joinable b = true -> jb_name a <> jb_name b ->
  exists d1 c,
    create_match now0 body d = (d1, reply 200 (Created c)) /\
    c_playersNeeded c = 1 /\ c_players c = [] /\
    forall id, JS.parseInt id = Some (c_id c) ->
      exists d2 a2 d3 d4 a4 d4' a4',
        join now1 id a d1 = (d2, reply 200 (Row a2)) /\
        players_json a2 = Some [build_player (new_player now1 (c_id c) a d1)] /\
        join now2 id b d2 = (d2, full) /\
        leave id (jb_name a) d2 = (d3, reply 200 (Message "Left match successfully")) /\
        join now3 id b d3 = (d4, reply 200 (Row a4)) /\
        players_json a4 = Some [build_player (new_player now3 (c_id c) b d3)] /\
        join now3 id a d3 = (d4', reply 200 (Row a4')).
Proof.
  intros Hv Hmseq Hpseq Hprov Hstor _ Hone Ha Hb Hab.
  pose proof (create_match_accepted now0 body 1 d Hv Hmseq Hprov Hstor Hone ltac:(lia))
    as Hcreate.
  set (m := new_match now0 body 1 d) in *.
  set (d1 := set_matches d (matches d ++ [m]) (matches_id_seq d + 1)) in *.
  exists d1, (format m). split; [done |]. split; [done |]. split; [done |].
  intros id Hid. change (c_id (format m)) with (m_id m) in *.
  assert (Hv1 : valid d1).
  { pose proof (create_match_valid now0 body d Hv) as Hv1. by rewrite Hcreate in Hv1. }
  assert (Hm1 : m ∈ matches d1) by (apply elem_of_app; right; left).
  assert (Hnone : forall p, p ∈ players d1 -> p_match_id p <> m_id m).
  { intros p Hp Heq. destruct (foreign_key d Hv p Hp) as (x & Hx & Hxid).
    pose proof (matches_serial d Hv x Hx). simpl in Heq. lia. }
  destruct (join_first now1 id a d1 m Hv1 ltac:(simpl; lia) Ha Hid Hm1 Hnone)
    as (Hjoin1 & Hplayers1 & Hcount1).
  set (pa := new_player now1 (m_id m) a d1) in *.
  set (d2 := set_players d1 (players d1 ++ [pa]) (players_id_seq d1 + 1)) in *.
  assert (Hv2 : valid d2).
  { pose proof (join_valid now1 id a d1 Hv1) as Hv2. by rewrite Hjoin1 in Hv2. }
  assert (Hpb : JS.present (jb_name b) = true /\ JS.present (jb_contact b) = true
                /\ JS.present (jb_name a) = true
                /\ text_in (text (jb_name a)) = true).
  { unfold joinable in Ha, Hb.
    repeat match goal with
    | Hx : _ && _ = true |- _ => apply andb_true_iff in Hx as [? ?]
    end. done. }
  destruct Hpb as (Hbn & Hbc & Han & Hat).
  assert (Hleave : leave id (jb_name a) d2
                   = (set_players d2 (players d1) (players_id_seq d2),
                      reply 200 (Message "Left match successfully"))).
  { rewrite leave_spec, Han, Hid, (integer_in_valid d1 m), Hat by done. cbn [negb].
    f_equal.
    - f_equal. simpl. by apply filter_not_named_snoc.
    - rewrite bool_decide_eq_true_2; [done |].
      apply Exists_exists. exists pa. split; [apply elem_of_app; right; left | done]. }
  set (d3 := set_players d2 (players d1) (players_id_seq d2)) in *.
  assert (Hv3 : valid d3).
  { pose proof (leave_valid id (jb_name a) d2 Hv2) as Hv3. by rewrite Hleave in Hv3. }
  destruct (join_first now3 id b d3 m Hv3 ltac:(simpl; lia) Hb Hid Hm1 Hnone)
    as (Hjoin3 & Hplayers3 & _).
  destruct (join_first now3 id a d3 m Hv3 ltac:(simpl; lia) Ha Hid Hm1 Hnone)
    as (Hjoin3' & _ & _).
  eexists d2, _, d3, _, _, _, _.
  split; [exact Hjoin1 |]. split; [exact Hplayers1 |].
  split; [|split; [exact Hleave |]; split; [exact Hjoin3 |]; split; [exact Hplayers3 |];
           exact Hjoin3'].
  apply (join_full now2 id b d2 m); try done.
  change (m_players_needed m) with 1. fold d2 in Hcount1. lia.
Qed.

End OneSeat.

(** The scenario as the specification has it, from the empty store. *)
Lemma one_seat_scenario_witness :
  valid empty /\ matches_id_seq empty < INT4_MAX /\ players_id_seq empty + 1 < INT4_MAX /\
  provided Scenario.turf = true /\ storable (H := iso) Scenario.turf = true /\
  JS.in_model (b_playersNeeded Scenario.turf) /\
  JS.parseInt_value (b_playersNeeded Scenario.turf) = Some 1 /\
  joinable (H := iso) Scenario.A = true /\ joinable (H := iso) Scenario.B = true /\
  jb_name Scenario.A <> jb_name Scenario.B /\
  exists d1 c,
    create_match (H := iso) 100 Scenario.turf empty = (d1, reply 200 (Created c)) /\
    c_playersNeeded c = 1 /\ c_players c = [] /\
    forall id, JS.parseInt id = Some (c_id c) ->
      exists d2 a2 d3 d4 a4 d4' a4',
        join (H := iso) 101 id Scenario.A d1 = (d2, reply 200 (Row a2)) /\
        players_json a2
          = Some [build_player (new_player 101 (c_id c) Scenario.A d1)] /\
        join (H := iso) 102 id Scenario.B d2 = (d2, full) /\
        leave (H := iso) id (jb_name Scenario.A) d2
          = (d3, reply 200 (Message "Left match successfully")) /\
        join (H := iso) 103 id Scenario.B d3 = (d4, reply 200 (Row a4)) /\
        players_json a4
          = Some [build_player (new_player 103 (c_id c) Scenario.B d3)] /\
        join (H := iso) 103 id Scenario.A d3 = (d4', reply 200 (Row a4')).
Proof.
  assert (Hin : JS.in_model (b_playersNeeded Scenario.turf)) by (vm_compute; discriminate).
  assert (Hne : jb_name Scenario.A <> jb_name Scenario.B) by discriminate.
  split; [exact valid_empty |].
  split; [reflexivity |]. split; [reflexivity |].
  split; [reflexivity |]. split; [reflexivity |].
  split; [exact Hin |]. split; [reflexivity |].
  split; [reflexivity |]. split; [reflexivity |].
  split; [exact Hne |].
  exact (one_seat_scenario (H := iso) 100 101 102 103 Scenario.turf Scenario.A Scenario.B
           empty valid_empty eq_refl eq_refl eq_refl eq_refl Hin eq_refl eq_refl eq_refl Hne).
Defined.

(** ** Creation *)

Section Creation.
Context `{Input}.




End Creation.



(** ** Leave and DeleteMatch *)

Section Removal.
Context `{Input}.

Lemma filter_key_unique {A B} (f : A -> B) (P : A -> Prop)
    `{forall x, Decision (P x)} (l : list A) (x : A) :
  NoDup (f <$> l) -> x ∈ l -> (forall y, P y <-> f y = f x) -> filter P l = [x].
Proof.
  intros Hnd Hin HP. induction l as [|y l IH]; [by apply elem_of_nil in Hin |].
  rewrite fmap_cons in Hnd. apply NoDup_cons in Hnd as [Hy Hnd].
  apply elem_of_cons in Hin as [-> | Hin].
  - rewrite filter_cons_True by (by apply HP). f_equal.
    apply filter_none. intros z Hz Hpz. apply Hy. apply HP in Hpz. rewrite <- Hpz.
    by apply list_elem_of_fmap_2.
  - rewrite filter_cons_False; [by apply IH |].
    intros Hpy. apply Hy. apply HP in Hpy. rewrite Hpy. by apply list_elem_of_fmap_2.
Qed.

Lemma filter_named_unique d p mid n :
  valid d -> p ∈ players d -> named mid n p -> filter (named mid n) (players d) = [p].
Proof.
  intros Hv Hp [Hm Hn]. apply (filter_key_unique key); [by destruct Hv | done |].
  intros q. unfold named, key. split; [intros [? ?]; congruence |].
  intros [= ? ?]. split; congruence.
Qed.

Lemma db_eta d :
  {| matches := matches d; players := players d;
     matches_id_seq := matches_id_seq d; players_id_seq := players_id_seq d |} = d.
Proof. by destruct d. Qed.

Lemma set_players_same d : set_players d (players d) (players_id_seq d) = d.
Proof. apply db_eta. Qed.

Lemma filter_filter_same {A} (P : A -> Prop) `{forall x, Decision (P x)} (l : list A) :
  filter P (filter P l) = filter P l.
Proof.
  apply filter_all, Forall_forall. by intros x [Hx _]%list_elem_of_filter.
Qed.

(** C7. Leave(matchId, name), for a name that is there and that the
    store reads, and an id of the store's INTEGER type: it fails with
    NotFound exactly when no (matchId, name) row exists, and then the
    store is unchanged; when the row exists the reply is the success
    message, the matches are untouched and the players are those
    before without that one row. *)
Theorem leave_removes_row id mid n d :
  valid d -> JS.parseInt id = Some mid -> int4 mid = true ->
  n <> "" -> text_in n = true ->
  (snd (leave id (Some n) d) = player_not_found
   <-> forall p, p ∈ players d -> ~ named mid n p) /\
  ((forall p, p ∈ players d -> ~ named mid n p) ->
   leave id (Some n) d = (d, player_not_found)) /\
  (forall p, p ∈ players d -> named mid n p ->
   exists d', leave id (Some n) d = (d', reply 200 (Message "Left match successfully")) /\
              matches d' = matches d /\
              players d' = filter (fun q => ~ named mid n q) (players d) /\
              filter (named mid n) (players d) = [p] /\
              players d ≡ₚ p :: players d').
Proof.
  intros Hv Hid Hint Hne Ht.
  assert (Hleave : leave id (Some n) d =
            (set_players d (filter (fun p => ~ named mid n p) (players d))
                         (players_id_seq d),
             if bool_decide (Exists (named mid n) (players d))
             then reply 200 (Message "Left match successfully")
             else player_not_found)).
  { rewrite leave_spec. simpl.
    apply String.eqb_neq in Hne. rewrite Hne, Hid. simpl. by rewrite Hint, Ht. }
  assert (Habsent : (forall p, p ∈ players d -> ~ named mid n p)
                    <-> ~ Exists (named mid n) (players d)).
  { rewrite Exists_exists. split.
    - intros Hno (p & Hp & Hn). by apply (Hno p).
    - intros Hno p Hp Hn. apply Hno. by exists p. }
  split; [|split].
  - rewrite Hleave, Habsent. simpl. case_bool_decide; [|done].
    split; [discriminate | done].
  - intros Hno. rewrite Hleave.
    rewrite bool_decide_eq_false_2 by (by apply Habsent).
    rewrite filter_all; [by rewrite set_players_same |].
    apply Forall_forall. intros p Hp. by apply Hno.
  - intros p Hp Hnamed. eexists. split; [rewrite Hleave; f_equal |].
    + rewrite bool_decide_eq_true_2; [done |]. apply Exists_exists. by exists p.
    + simpl. split; [done |]. split; [done |].
      pose proof (filter_named_unique d p mid n Hv Hp Hnamed) as Hone.
      split; [done |].
      rewrite <- (filter_app_complement (named mid n) (players d)) at 1.
      by rewrite Hone.
Qed.

(** C6. DeleteMatch(matchId), for an id of the store's INTEGER type:
    when the match exists, the reply is the success message, the
    match row is gone with every player row that references it, the
    other rows stay, and no player is left without its match; when no
    match has the id, it fails with NotFound and the store is
    unchanged. *)
Theorem delete_cascades id mid d :
  valid d -> JS.parseInt id = Some mid -> int4 mid = true ->
  ((exists m, m ∈ matches d /\ m_id m = mid) ->
   exists d', delete id d = (d', reply 200 (Message "Match deleted successfully")) /\
     matches d' = filter (fun m => ~ has_id mid m) (matches d) /\
     players d' = filter (fun p => ~ on_match mid p) (players d) /\
     (forall m, m ∈ matches d' -> m_id m <> mid) /\
     (forall p, p ∈ players d' -> p_match_id p <> mid) /\
     (forall p, p ∈ players d' -> exists m, m ∈ matches d' /\ m_id m = p_match_id p)) /\
  ((forall m, m ∈ matches d -> m_id m <> mid) -> delete id d = (d, match_not_found)).
Proof.
  intros Hv Hid Hint.
  assert (Hi : integer_in (JS.parseInt id) = Some mid).
  { rewrite Hid. unfold integer_in. by rewrite Hint. }
  split.
  - intros (m & Hm & Hmid).
    unfold delete. run_handler. unfold delete_players_of, delete_match. rewrite Hi. simpl.
    destruct (filter (has_id mid) (matches d)) as [|x xs] eqn:Hf.
    { exfalso. by apply (filter_nil_not_elem_of _ _ m Hf). }
    simpl. eexists. split; [done |]. simpl.
    rewrite filter_filter_same.
    split; [done |]. split; [done |].
    split; [by intros y [Hy _]%list_elem_of_filter |].
    split; [by intros p [Hp _]%list_elem_of_filter |].
    intros p [Hp Hin]%list_elem_of_filter.
    destruct (foreign_key d Hv p Hin) as (y & Hy & Hyid).
    exists y. split; [|done]. apply list_elem_of_filter. split; [|done].
    unfold has_id, on_match in *. congruence.
  - intros Hno.
    unfold delete. run_handler. unfold delete_players_of, delete_match. rewrite Hi. simpl.
    rewrite (filter_has_id_none (matches d) mid Hno). simpl.
    rewrite filter_all; [by rewrite set_players_same |].
    apply Forall_forall. intros p Hp Hon.
    destruct (foreign_key d Hv p Hp) as (y & Hy & Hyid).
    apply (Hno y Hy). unfold on_match in Hon. congruence.
Qed.

End Removal.

Lemma valid_created : valid Scenario.created.
Proof. apply (create_match_valid (H := iso) 100 Scenario.turf empty valid_empty). Qed.

Lemma valid_joined : valid Scenario.joined.
Proof. apply (join_valid (H := iso) 101 "1" Scenario.A Scenario.created valid_created). Qed.

(** A leaves the match they joined. *)
Lemma leave_removes_row_witness :
  valid Scenario.joined /\ JS.parseInt "1" = Some 1 /\ int4 1 = true /\
  "A" <> "" /\ text_in (Input := iso) "A" = true /\
  (snd (leave (H := iso) "1" (Some "A") Scenario.joined) = player_not_found
   <-> forall p, p ∈ players Scenario.joined -> ~ named 1 "A" p) /\
  ((forall p, p ∈ players Scenario.joined -> ~ named 1 "A" p) ->
   leave (H := iso) "1" (Some "A") Scenario.joined = (Scenario.joined, player_not_found)) /\
  (forall p, p ∈ players Scenario.joined -> named 1 "A" p ->
   exists d', leave (H := iso) "1" (Some "A") Scenario.joined
              = (d', reply 200 (Message "Left match successfully")) /\
              matches d' = matches Scenario.joined /\
              players d' = filter (fun q => ~ named 1 "A" q) (players Scenario.joined) /\
              filter (named 1 "A") (players Scenario.joined) = [p] /\
              players Scenario.joined ≡ₚ p :: players d').
Proof.
  assert (Hne : "A" <> "") by discriminate.
  split; [exact valid_joined |]. split; [reflexivity |]. split; [reflexivity |].
  split; [exact Hne |]. split; [reflexivity |].
  exact (leave_removes_row (H := iso) "1" 1 "A" Scenario.joined
           valid_joined eq_refl eq_refl Hne eq_refl).
Defined.

(** The match goes, and A with it. *)
Lemma delete_cascades_witness :
  valid Scenario.joined /\ JS.parseInt "1" = Some 1 /\ int4 1 = true /\
  (exists m, m ∈ matches Scenario.joined /\ m_id m = 1) /\
  exists d', delete "1" Scenario.joined
             = (d', reply 200 (Message "Match deleted successfully")) /\
    matches d' = filter (fun m => ~ has_id 1 m) (matches Scenario.joined) /\
    players d' = filter (fun p => ~ on_match 1 p) (players Scenario.joined) /\
    (forall m, m ∈ matches d' -> m_id m <> 1) /\
    (forall p, p ∈ players d' -> p_match_id p <> 1) /\
    (forall p, p ∈ players d' -> exists m, m ∈ matches d' /\ m_id m = p_match_id p).
Proof.
  assert (Hm : exists m, m ∈ matches Scenario.joined /\ m_id m = 1).
  { exists Scenario.new_row. split; [vm_compute; left | reflexivity]. }
  split; [exact valid_joined |]. split; [reflexivity |]. split; [reflexivity |].
  split; [exact Hm |].
  exact (proj1 (delete_cascades "1" 1 Scenario.joined valid_joined eq_refl eq_refl) Hm).
Defined.

(** ** Reading *)

Section Reading.








End Reading.


(** ** Sessions *)

Section Sessions.
Context `{Auth.Bcrypt}.









End Sessions.


(** ** The id of a path *)

Section Ids.
Context `{Input}.

Lemma decimal_code a : JS.decimal a = true <-> 48 <= JS.code a <= 57.
Proof.
  unfold JS.decimal, JS.is_digit, JS.digit_value.
  repeat case_match;
    repeat match goal with
    | Hb : _ && _ = true |- _ => apply andb_true_iff in Hb as [? ?]
    | Hb : _ && _ = false |- _ => apply andb_false_iff in Hb
    | Hb : (_ <=? _) = true |- _ => apply Z.leb_le in Hb
    end;
    rewrite Z.ltb_lt; split; try lia;
    intros ?;
    repeat match goal with
    | Hb : _ \/ _ |- _ => destruct Hb
    | Hb : (_ <=? _) = false |- _ => apply Z.leb_gt in Hb
    end; lia.
Qed.

Ltac compare_codes :=
  repeat match goal with
  | |- context [(?x <=? ?y)] => destruct (Z.leb_spec x y)
  | |- context [(?x =? ?y)] => destruct (Z.eqb_spec x y)
  end; simpl; try done; try lia.

Lemma trimStart_decimal a r : JS.decimal a = true -> JS.trimStart (String a r) = String a r.
Proof.
  intros Ha%decimal_code. simpl.
  assert (JS.is_ws1 a = false) as -> by (unfold JS.is_ws1; cbv zeta; compare_codes).
  destruct r as [|b r2]; [done |].
  assert (JS.is_ws2 a b = false) as -> by (unfold JS.is_ws2; compare_codes).
  destruct r2 as [|c r3]; [done |].
  assert (JS.is_ws3 a b c = false) as ->; [|done].
  unfold JS.is_ws3. cbv zeta.
  assert (forall k, 200 <= k -> (JS.code a =? k) = false) as Hk
    by (intros k Hk; apply Z.eqb_neq; lia).
  by rewrite !Hk by lia.
Qed.

Lemma strip_sign_decimal a r :
  JS.decimal a = true -> JS.strip_sign (String a r) = (1, String a r).
Proof.
  intros Ha%decimal_code. unfold JS.strip_sign.
  assert ((JS.code a =? 45) = false) as -> by (apply Z.eqb_neq; lia).
  by assert ((JS.code a =? 43) = false) as -> by (apply Z.eqb_neq; lia).
Qed.

Lemma append_empty s : "" +:+ s = s.
Proof. reflexivity. Qed.

Lemma append_String a s t : String a s +:+ t = String a (s +:+ t).
Proof. reflexivity. Qed.

Lemma append_empty_r s : s +:+ "" = s.
Proof. induction s as [|a s IH]; [done |]. by rewrite append_String, IH. Qed.

Lemma take_digits_prefix digits rest :
  JS.all_decimal digits = true -> JS.starts_with JS.decimal rest = false ->
  JS.take_digits 10 (digits +:+ rest) = JS.take_digits 10 digits.
Proof.
  intros Hd Hr.
  induction digits as [|a ds IH]; rewrite ?append_empty, ?append_String; cbn [JS.take_digits].
  - destruct rest as [|b r]; [done |]. cbn [JS.starts_with] in Hr.
    unfold JS.decimal in Hr. cbn [JS.take_digits]. by rewrite Hr.
  - cbn [JS.all_decimal] in Hd. apply andb_true_iff in Hd as [Ha Hds].
    unfold JS.decimal in Ha. rewrite Ha. f_equal. by apply IH.
Qed.

Lemma strip_prefix_decimal a ds rest :
  JS.all_decimal ds = true ->
  ~ (JS.code a = 48 /\ ds = "" /\ JS.starts_with JS.is_x rest = true) ->
  JS.strip_prefix (String a (ds +:+ rest)) = (10, String a (ds +:+ rest)).
Proof.
  intros Hds Hnot. unfold JS.strip_prefix.
  destruct ds as [|b ds]; rewrite ?append_empty, ?append_String.
  - destruct rest as [|b r]; [done |].
    destruct (JS.code a =? 48) eqn:Ha; [|done].
    destruct ((JS.code b =? 120) || (JS.code b =? 88)) eqn:Hb; [|done].
    exfalso. apply Hnot. apply Z.eqb_eq in Ha. done.
  - cbn [JS.all_decimal] in Hds. apply andb_true_iff in Hds as [Hb%decimal_code _].
    assert ((JS.code b =? 120) = false) as -> by (apply Z.eqb_neq; lia).
    assert ((JS.code b =? 88) = false) as -> by (apply Z.eqb_neq; lia).
    by rewrite andb_false_r.
Qed.

(** Digits followed by something else read as the digits alone,
    unless [0x] starts a hexadecimal number. *)
Lemma parseInt_decimal_prefix digits rest :
  digits <> "" -> JS.all_decimal digits = true ->
  JS.starts_with JS.decimal rest = false ->
  ~ (digits = "0" /\ JS.starts_with JS.is_x rest = true) ->
  JS.parseInt (digits +:+ rest) = JS.parseInt digits.
Proof.
  intros Hne Hd Hr Hx. destruct digits as [|a ds]; [done |].
  cbn [JS.all_decimal] in Hd. apply andb_true_iff in Hd as [Ha Hds].
  assert (Hnot : forall rest', ~ (JS.code a = 48 /\ ds = "" /\
                    JS.starts_with JS.is_x rest' = true) ->
            JS.parseInt (String a ds +:+ rest')
            = match JS.take_digits 10 (String a ds +:+ rest') with
              | [] => None
              | l => Some (1 * JS.digits_value 10 l)
              end).
  { intros rest' Hn. unfold JS.parseInt. rewrite append_String.
    rewrite trimStart_decimal, strip_sign_decimal by done.
    by rewrite strip_prefix_decimal. }
  rewrite Hnot.
  2:{ intros (Hc & -> & Hrx). apply Hx. split; [|done]. f_equal.
      apply (f_equal Z.to_N) in Hc. unfold JS.code in Hc. rewrite N2Z.id in Hc.
      apply (f_equal ascii_of_N) in Hc. by rewrite ascii_N_embedding in Hc. }
  pose proof (Hnot "" ltac:(by intros (_ & _ & ?))) as Halone.
  rewrite append_empty_r in Halone. rewrite Halone.
  rewrite (take_digits_prefix (String a ds) rest); [done | | done].
  cbn [JS.all_decimal]. by rewrite Ha.
Qed.

(** No digit and no sign in front: [NaN]. *)
Lemma parseInt_no_digit id :
  match JS.trimStart id with
  | EmptyString => True
  | String a _ => JS.is_sign a = false /\ JS.decimal a = false
  end ->
  JS.parseInt id = None.
Proof.
  unfold JS.parseInt. destruct (JS.trimStart id) as [|a r]; [done |].
  intros [Hs Hd]. unfold JS.is_sign in Hs. apply orb_false_iff in Hs as [Hm Hp].
  unfold JS.strip_sign. rewrite Hm, Hp.
  assert ((JS.code a =? 48) = false) as Hz.
  { apply Z.eqb_neq. intros Hc.
    assert (JS.decimal a = true) by (apply decimal_code; lia). congruence. }
  unfold JS.strip_prefix. rewrite Hz.
  unfold JS.decimal in Hd.
  destruct r as [|b r]; cbn [andb JS.take_digits]; by rewrite Hd.
Qed.

(** The handlers see the id through [parseInt] only. *)
Lemma same_parse id id' :
  JS.parseInt id = JS.parseInt id' ->
  forall now b n d,
    get_match id d = get_match id' d /\
    join now id b d = join now id' b d /\
    leave id n d = leave id' n d /\
    delete id d = delete id' d.
Proof.
  intros Heq now b n d. unfold get_match, join, leave, delete. by rewrite Heq.
Qed.

(** C10, amended. Every match endpoint reads the id of the path with
    [parseInt].  An id made of decimal digits followed by a character
    that is no digit behaves exactly as the digits alone, unless the
    digits are a lone 0 followed by x or X, which starts a
    hexadecimal number.  When [parseInt] yields NaN the store refuses
    the parameter: GetMatch and DeleteMatch answer 500, not 404; Join
    and Leave answer 500 as well when their body has its fields, and
    400 when it has not, since they look at the body first.  NaN is
    what an id gives that, after its leading white space, is empty or
    starts with a character that is neither a digit nor a sign. *)
Theorem id_is_parsed (id : string) :
  (forall digits rest,
     id = digits +:+ rest -> digits <> "" -> JS.all_decimal digits = true ->
     JS.starts_with JS.decimal rest = false ->
     ~ (digits = "0" /\ JS.starts_with JS.is_x rest = true) ->
     JS.parseInt id = JS.parseInt digits /\
     forall now b n d,
       get_match id d = get_match digits d /\
       join now id b d = join now digits b d /\
       leave id n d = leave digits n d /\
       delete id d = delete digits d) /\
  (JS.parseInt id = None ->
   forall now b n d,
     get_match id d = (d, reply 500 (Error "Failed to fetch match")) /\
     delete id d = (d, reply 500 (Error "Failed to delete match")) /\
     join now id b d
     = (d, if JS.present (jb_name b) && JS.present (jb_contact b)
           then join_failed
           else reply 400 (Error "Name and contact required")) /\
     leave id n d
     = (d, if JS.present n
           then reply 500 (Error "Failed to leave match")
           else reply 400 (Error "Name required"))) /\
  (match JS.trimStart id with
   | EmptyString => True
   | String a _ => JS.is_sign a = false /\ JS.decimal a = false
   end ->
   JS.parseInt id = None).
Proof.
  split; [|split].
  - intros digits rest -> Hne Hd Hr Hx.
    pose proof (parseInt_decimal_prefix digits rest Hne Hd Hr Hx) as Heq.
    split; [done |]. by apply same_parse.
  - intros Hnan now b n d. split; [|split; [|split]].
    + unfold get_match. run_handler. unfold select_aggregate. by rewrite Hnan.
    + unfold delete. run_handler. unfold delete_players_of. by rewrite Hnan.
    + rewrite join_spec, Hnan. simpl.
      by destruct (JS.present (jb_name b)), (JS.present (jb_contact b)).
    + rewrite leave_spec, Hnan. simpl. by destruct (JS.present n).
  - apply parseInt_no_digit.
Qed.

End Ids.

(** The ids [5abc] and [abc]. *)
Lemma id_is_parsed_witness :
  ("5abc" = "5" +:+ "abc" /\ "5" <> "" /\ JS.all_decimal "5" = true /\
   JS.starts_with JS.decimal "abc" = false /\
   ~ ("5" = "0" /\ JS.starts_with JS.is_x "abc" = true) /\
   JS.parseInt "5abc" = JS.parseInt "5" /\
   forall now b n d,
     get_match "5abc" d = get_match "5" d /\
     join (H := iso) now "5abc" b d = join (H := iso) now "5" b d /\
     leave (H := iso) "5abc" n d = leave (H := iso) "5" n d /\
     delete "5abc" d = delete "5" d) /\
  (JS.parseInt "abc" = None /\
   forall now b n d,
     get_match "abc" d = (d, reply 500 (Error "Failed to fetch match")) /\
     delete "abc" d = (d, reply 500 (Error "Failed to delete match")) /\
     join (H := iso) now "abc" b d
     = (d, if JS.present (jb_name b) && JS.present (jb_contact b)
           then join_failed
           else reply 400 (Error "Name and contact required")) /\
     leave (H := iso) "abc" n d
     = (d, if JS.present n
           then reply 500 (Error "Failed to leave match")
           else reply 400 (Error "Name required"))).
Proof.
  assert (Hx : ~ ("5" = "0" /\ JS.starts_with JS.is_x "abc" = true))
    by (intros [? _]; discriminate).
  assert (H5 : "5" <> "") by discriminate.
  split.
  - split; [reflexivity |]. split; [exact H5 |]. split; [reflexivity |].
    split; [reflexivity |]. split; [exact Hx |].
    exact (proj1 (id_is_parsed (H := iso) "5abc") "5" "abc" eq_refl H5 eq_refl eq_refl Hx).
  - split; [reflexivity |].
    exact (proj1 (proj2 (id_is_parsed (H := iso) "abc")) eq_refl).
Defined.

(** C10 as stated fails three ways: [0x1] has the numeric prefix 0 but
    is read as 1; [+1] has no leading digit but is read as 1, not
    NaN; and with NaN, Join on a body without its fields answers 400,
    not 500. *)
Lemma id_not_numeric_prefix :
  (code (snd (get_match "0x1" Scenario.created)) = 200 /\
   code (snd (get_match "0" Scenario.created)) = 404) /\
  (JS.starts_with JS.decimal "+1" = false /\ JS.parseInt "+1" = Some 1 /\
   code (snd (get_match "+1" Scenario.created)) = 200) /\
  (JS.parseInt "abc" = None /\
   code (snd (join (H := iso) 101 "abc"
                {| jb_name := None; jb_contact := None |} Scenario.created)) = 400).
Proof. repeat split; reflexivity. Qed.

(** ** Two Joins at once *)

Section Concurrent.
Context `{Input}.

Lemma replied_stays now r d : join_step now (Replied r) d = (d, Replied r).
Proof. done. Qed.

(** The first three statements of a Join that nobody interrupts, on
    a match with one seat left: it gave up, or its row is in and the
    match is full. *)
Lemma first_three_steps t1 t2 t3 id b d mid m d1 s1 d2 s2 d3 s3 :
  valid d -> JS.parseInt id = Some mid -> m ∈ matches d -> m_id m = mid ->
  player_count d mid + 1 = m_players_needed m ->
  join_step t1 (Received id b) d = (d1, s1) ->
  join_step t2 s1 d1 = (d2, s2) ->
  join_step t3 s2 d2 = (d3, s3) ->
  matches d3 = matches d /\ valid d3 /\
  ((exists r, s3 = Replied r /\ succeeded (Replied r) = false) \/
   (s3 = Inserted (Some mid) /\ player_count d3 mid = m_players_needed m)).
Proof.
  intros Hv Hid Hm Hmid Hseat H1 H2 H3. subst mid.
  unfold join_step in H1.
  destruct (negb (JS.present (jb_name b)) || negb (JS.present (jb_contact b))).
  { simplify_eq. simpl in H2. simplify_eq. simpl in H3. simplify_eq.
    split; [done |]. split; [done |]. left. by eexists. }
  unfold select_match_count in H1. rewrite Hid, (integer_in_valid d m) in H1 by done.
  rewrite filter_has_id_unique in H1; [|by destruct Hv | done].
  simpl first in H1. rewrite count_left_join in H1.
  destruct (Z.leb_spec (m_players_needed m) (player_count d (m_id m))); [lia |].
  simplify_eq.
  unfold join_step, select_player in H2. rewrite (integer_in_valid d1 m) in H2 by done.
  destruct (text_in (text (jb_name b))).
  2:{ simplify_eq. simpl in H3. simplify_eq.
      split; [done |]. split; [done |]. left. by eexists. }
  destruct (0 <? length _)%nat.
  { simplify_eq. simpl in H3. simplify_eq.
    split; [done |]. split; [done |]. left. by eexists. }
  simplify_eq. unfold join_step in H3.
  destruct (insert_player t3 (Some (m_id m)) (text (jb_name b)) (text (jb_contact b)) d2)
    as [d' r] eqn:Hins.
  assert (Hv3 : valid d') by (by eapply valid_insert_player).
  apply insert_player_outcome in Hins as (Hms & _ & Hcase).
  destruct Hcase as [(_ & [e ->] & _) | (p & i & -> & Hps & Hint & Hpm & _)]; simplify_eq.
  - split; [done |]. split; [done |]. left. by eexists.
  - split; [done |]. split; [done |]. right. split; [done |].
    apply integer_in_Some in Hint as [[= Hi] _].
    rewrite (player_count_insert d2 d3 p) by done.
    rewrite decide_True by done. lia.
Qed.

(** The four statements of a Join that nobody interrupts are the
    handler. *)
Ltac replied :=
  repeat match goal with
  | Hs : join_step _ (Replied _) _ = _ |- _ => rewrite replied_stays in Hs
  | Hs : (_, _) = (_, _) |- _ => injection Hs as <- <-
  end.

Lemma join_steps t1 t2 t3 t4 id b d d1 s1 d2 s2 d3 s3 d4 s4 :
  join_step t1 (Received id b) d = (d1, s1) ->
  join_step t2 s1 d1 = (d2, s2) ->
  join_step t3 s2 d2 = (d3, s3) ->
  join_step t4 s3 d3 = (d4, s4) ->
  (d4, s4) = (fst (join t3 id b d), Replied (snd (join t3 id b d))).
Proof.
  intros H1 H2 H3 H4. unfold join. run_handler.
  unfold join_step in H1.
  destruct (negb (JS.present (jb_name b)) || negb (JS.present (jb_contact b))).
  { by replied. }
  destruct (select_match_count (JS.parseInt id) d) as [d' [e|rows]]; [by replied |].
  destruct (first rows) as [[m n]|]; [|by replied].
  destruct (m_players_needed m <=? n); [by replied |].
  simplify_eq. unfold join_step in H2.
  destruct (select_player (JS.parseInt id) (text (jb_name b)) d1) as [d' [e|rows']];
    [by replied |].
  destruct (0 <? length rows')%nat; [by replied |].
  simplify_eq. unfold join_step in H3.
  destruct (insert_player t3 (JS.parseInt id) (text (jb_name b)) (text (jb_contact b)) d2)
    as [d' [e|[]]]; [by replied |].
  simplify_eq. unfold join_step in H4.
  destruct (select_aggregate (JS.parseInt id) d3) as [d' [e|rows'']]; [by replied |].
  destruct (first rows''); by replied.
Qed.

(** A Join that has replied keeps its reply, whatever runs. *)
Lemma run_replied_first schedule w r :
  first_join w = Replied r -> first_join (run schedule w) = Replied r.
Proof.
  revert w. induction schedule as [|[[] now] sched IH]; intros w Hw; [done | |];
    simpl; apply IH; unfold world_step.
  - rewrite Hw, replied_stays. done.
  - by destruct (join_step now (second_join w) (store w)).
Qed.

Lemma step_second_is_late id2 b2 mid m t w :
  JS.parseInt id2 = Some mid -> m_id m = mid ->
  second_is_late id2 b2 mid m w -> second_is_late id2 b2 mid m (world_step t w).
Proof.
  intros Hid Hmid (Hv & Hm & Hfull & Hfirst & Hsecond). subst mid.
  destruct t as [[] now]; unfold world_step.
  - destruct Hfirst as [[i Hf] | [r Hf]]; rewrite Hf.
    + unfold join_step, select_aggregate.
      destruct (integer_in i);
        [destruct (first _) |]; (split; [done |]; split; [done |]; split; [done |];
                                 split; [right; by eexists | done]).
    + rewrite replied_stays. split; [done |]. split; [done |]. split; [done |].
      split; [right; by eexists | done].
  - destruct Hsecond as [Hs | (r & Hs & Hr)]; rewrite Hs.
    + unfold join_step.
      destruct (negb (JS.present (jb_name b2)) || negb (JS.present (jb_contact b2))).
      { split; [done |]. split; [done |]. split; [done |]. split; [done |].
        right. by eexists. }
      unfold select_match_count. rewrite Hid, (integer_in_valid (store w) m) by done.
      rewrite filter_has_id_unique; [|by destruct Hv | done].
      simpl first. rewrite count_left_join.
      destruct (Z.leb_spec (m_players_needed m) (player_count (store w) (m_id m))); [|lia].
      split; [done |]. split; [done |]. split; [done |]. split; [done |].
      right. by eexists.
    + rewrite replied_stays. split; [done |]. split; [done |]. split; [done |].
      split; [done |]. right. by eexists.
Qed.

Lemma run_second_is_late id2 b2 mid m schedule w :
  JS.parseInt id2 = Some mid -> m_id m = mid ->
  second_is_late id2 b2 mid m w -> second_is_late id2 b2 mid m (run schedule w).
Proof.
  intros Hid Hmid. revert w. induction schedule as [|t sched IH]; intros w Hw; [done |].
  simpl. apply IH. by apply step_second_is_late.
Qed.

Lemma run_swap schedule w : run (flip <$> schedule) (swap w) = swap (run schedule w).
Proof.
  revert w. induction schedule as [|[[] now] sched IH]; intros w; [done | |];
    rewrite fmap_cons; simpl; rewrite <- IH; f_equal; unfold world_step, swap; simpl;
    by destruct (join_step _ _ _).
Qed.

Lemma first_started_first t1 t2 t3 rest id1 id2 b1 b2 d mid m :
  valid d -> JS.parseInt id1 = Some mid -> JS.parseInt id2 = Some mid ->
  m ∈ matches d -> m_id m = mid -> player_count d mid + 1 = m_players_needed m ->
  let w := run ((First, t1) :: (First, t2) :: (First, t3) :: rest)
               (received d id1 b1 id2 b2) in
  ~ (succeeded (first_join w) = true /\ succeeded (second_join w) = true).
Proof.
  intros Hv Hid1 Hid2 Hm Hmid Hseat w [Hs1 Hs2].
  destruct (join_step t1 (Received id1 b1) d) as [d1 s1] eqn:H1.
  destruct (join_step t2 s1 d1) as [d2 s2] eqn:H2.
  destruct (join_step t3 s2 d2) as [d3 s3] eqn:H3.
  destruct (first_three_steps t1 t2 t3 id1 b1 d mid m d1 s1 d2 s2 d3 s3
              Hv Hid1 Hm Hmid Hseat H1 H2 H3) as (Hms & Hv3 & Hcase).
  assert (Hw : w = run rest {| store := d3; first_join := s3;
                               second_join := Received id2 b2 |}).
  { unfold w, received, run. cbn [fold_left world_step store first_join second_join].
    rewrite H1. cbn [store first_join second_join]. rewrite H2.
    cbn [store first_join second_join]. by rewrite H3. }
  destruct Hcase as [(r & -> & Hr) | [-> Hfull]].
  - rewrite Hw, (run_replied_first rest _ r) in Hs1 by done. congruence.
  - assert (Hlate : second_is_late id2 b2 mid m w).
    { rewrite Hw. apply run_second_is_late; [done | done |].
      unfold second_is_late. cbn [store first_join second_join].
      split; [done |]. split; [by rewrite Hms |]. split; [lia |].
      split; [left; by eexists | by left]. }
    destruct Hlate as (_ & _ & _ & _ & [Hs | (r & Hs & Hr)]); rewrite Hs in Hs2; [done |].
    congruence.
Qed.

(** C3, amended. The count, compare and insert of Join are separate
    statements with nothing to hold them together: two Joins that
    interleave can both pass the check.  What holds is this: on a
    match with exactly one seat left, when one of the two Joins runs
    its first three statements (count, duplicate check, insert)
    before the other one starts, as when the requests do not
    overlap, they never both succeed, however the rest is
    scheduled. *)
Theorem joins_one_after_the_other (x : turn) t1 t2 t3 rest id1 id2 b1 b2 d mid m :
  valid d -> JS.parseInt id1 = Some mid -> JS.parseInt id2 = Some mid ->
  m ∈ matches d -> m_id m = mid -> player_count d mid + 1 = m_players_needed m ->
  let w := run ((x, t1) :: (x, t2) :: (x, t3) :: rest) (received d id1 b1 id2 b2) in
  ~ (succeeded (first_join w) = true /\ succeeded (second_join w) = true).
Proof.
  intros Hv Hid1 Hid2 Hm Hmid Hseat. destruct x.
  - by apply (first_started_first t1 t2 t3 rest id1 id2 b1 b2 d mid m).
  - intros w [Hs1 Hs2].
    apply (first_started_first t1 t2 t3 (flip <$> rest) id2 id1 b2 b1 d mid m
             Hv Hid2 Hid1 Hm Hmid Hseat).
    change ((First, t1) :: (First, t2) :: (First, t3) :: (flip <$> rest))
      with (flip <$> ((Second, t1) :: (Second, t2) :: (Second, t3) :: rest)).
    change (received d id2 b2 id1 b1) with (swap (received d id1 b1 id2 b2)).
    rewrite run_swap. done.
Qed.

End Concurrent.

(** A runs its first three statements, then the turns alternate. *)
Lemma joins_one_after_the_other_witness :
  valid Scenario.created /\ JS.parseInt "1" = Some 1 /\
  Scenario.new_row ∈ matches Scenario.created /\ m_id Scenario.new_row = 1 /\
  player_count Scenario.created 1 + 1 = m_players_needed Scenario.new_row /\
  let w := run (H := iso)
             ((First, 101) :: (First, 102) :: (First, 103) :: Scenario.interleaved)
             (received Scenario.created "1" Scenario.A "1" Scenario.B) in
  ~ (succeeded (first_join w) = true /\ succeeded (second_join w) = true).
Proof.
  assert (Hv : valid Scenario.created).
  { apply (create_match_invariant (H := iso) 100 Scenario.turf empty invariant_empty). }
  assert (Hm : Scenario.new_row ∈ matches Scenario.created) by (vm_compute; left).
  split; [exact Hv |]. split; [reflexivity |]. split; [exact Hm |].
  split; [reflexivity |]. split; [reflexivity |].
  exact (joins_one_after_the_other (H := iso) First 101 102 103 Scenario.interleaved
           "1" "1" Scenario.A Scenario.B Scenario.created 1 Scenario.new_row
           Hv eq_refl eq_refl Hm eq_refl eq_refl).
Defined.

(** C3 as stated fails: statement by statement in turns, both Joins
    read a count of 0, both insert, both reply 200, and the match
    that needs one player has two. *)
Lemma joins_interleaved_both_succeed :
  let w := run (H := iso) Scenario.interleaved
             (received Scenario.created "1" Scenario.A "1" Scenario.B) in
  jb_name Scenario.A <> jb_name Scenario.B /\
  player_count Scenario.created 1 + 1 = m_players_needed Scenario.new_row /\
  succeeded (first_join w) = true /\ succeeded (second_join w) = true /\
  player_count (store w) 1 = 2 /\
  matches (store w) = [Scenario.new_row] /\ m_players_needed Scenario.new_row = 1.
Proof. repeat split; try reflexivity. discriminate. Qed.

(** C1 as stated fails: from a store within capacity, two Joins
    whose statements take turns leave the match that needs one player
    with two, and the aggregate the second Join returns lists both. *)
Lemma capacity_exceeded_in_turns :
  let w := run (H := iso) Scenario.interleaved
             (received Scenario.created "1" Scenario.A "1" Scenario.B) in
  valid Scenario.created /\ within_capacity Scenario.created /\
  ~ within_capacity (store w) /\
  exists a ps,
    second_join w = Replied (reply 200 (Row a)) /\
    players_json a = Some ps /\ length ps = 2%nat /\
    m_players_needed (row a) = 1 /\
    ~ aggregate_within_capacity a.
Proof.
  intros w. split; [exact valid_created |]. split; [|split].
  - intros m Hm.
    assert (matches Scenario.created = [Scenario.new_row]) as Hms by reflexivity.
    rewrite Hms in Hm. apply list_elem_of_singleton in Hm as ->. by vm_compute.
  - intros Hc.
    assert (Hm : Scenario.new_row ∈ matches (store w)) by (vm_compute; left).
    specialize (Hc _ Hm). vm_compute in Hc. by apply Hc.
  - destruct (second_join w) as [| | | |[c [| |a| | |]]] eqn:Hw; try (by vm_compute in Hw).
    destruct (players_json a) as [ps|] eqn:Hps.
    2:{ vm_compute in Hw. injection Hw as _ <-. by vm_compute in Hps. }
    exists a, ps.
    assert (c = 200) as -> by (vm_compute in Hw; by injection Hw as <- _).
    split; [done |]. split; [done |].
    assert (length ps = 2%nat /\ m_players_needed (row a) = 1) as [Hlen Hneed].
    { vm_compute in Hw. injection Hw as <-. vm_compute in Hps. injection Hps as <-.
      by split. }
    split; [done |]. split; [done |].
    intros (ps' & Hps' & Hle). rewrite Hps in Hps'. injection Hps' as <-.
    rewrite Hneed in Hle. lia.
Qed.

(** * Further properties of the handlers *)

Import Kept.

(** ** Failed requests *)

Section Failures.
Context `{Input}.

Lemma delete_valid id d : valid d -> valid (fst (delete id d)).
Proof.
  intros Hv. unfold delete. run_handler.
  destruct (delete_players_of _ d) as [d1 [e|[]]] eqn:H1.
  - simpl. by eapply valid_delete_players_of.
  - assert (Hv1 : valid d1) by (by eapply valid_delete_players_of).
    destruct (delete_match _ d1) as [d2 [e|rows]] eqn:H2;
      [|destruct (length rows =? 0)%nat]; simpl; by eapply valid_delete_match.
Qed.

Lemma create_match_failed now b d :
  code (snd (create_match now b d)) <> 200 ->
  tables_kept d (fst (create_match now b d)).
Proof.
  unfold create_match. run_handler.
  destruct (_ || _); [done |].
  destruct (insert_match _ _ _ _ _ _ _ d) as [d' r] eqn:Hins.
  apply insert_match_outcome in Hins as (Hps & _ & Hcase).
  destruct Hcase as [(Hms & [e ->] & _) | (m & -> & _)]; [done |].
  simpl. done.
Qed.

Lemma join_failed_keeps now id b d :
  code (snd (join now id b d)) <> 200 -> tables_kept d (fst (join now id b d)).
Proof.
  rewrite join_spec.
  destruct (_ || _); [done |].
  destruct (integer_in (JS.parseInt id)) as [i|]; [|done].
  destruct (filter (has_id i) (matches d)) as [|m ms]; [done |].
  destruct (m_players_needed m <=? player_count d i); [done |].
  destruct (negb _); [done |].
  destruct (bool_decide _); [done |].
  destruct (insert_player _ _ _ _ d) as [d' r] eqn:Hins.
  apply insert_player_outcome in Hins as (Hms & _ & Hcase).
  destruct Hcase as [(Hps & [e ->] & _) | (p & i' & -> & _)]; [done |].
  simpl. done.
Qed.

Lemma leave_failed_keeps id n d :
  code (snd (leave id n d)) <> 200 -> tables_kept d (fst (leave id n d)).
Proof.
  rewrite leave_spec.
  destruct (negb (JS.present n)); [done |].
  destruct (integer_in (JS.parseInt id)) as [i|]; [|done].
  destruct (text_in (text n)); [|done].
  case_bool_decide as Hex; [done |]. intros _. split; [done |]. simpl.
  apply filter_all, Forall_forall. intros p Hp Hn. apply Hex, Exists_exists. by exists p.
Qed.

Lemma delete_failed_keeps id d :
  valid d -> code (snd (delete id d)) <> 200 -> tables_kept d (fst (delete id d)).
Proof.
  intros Hv. unfold delete. run_handler. unfold delete_players_of, delete_match.
  destruct (integer_in (JS.parseInt id)) as [i|] eqn:Hi; [|done]. simpl.
  destruct (filter (has_id i) (matches d)) as [|m ms] eqn:Hf; [|done].
  simpl. intros _. split; [done |]. simpl.
  apply filter_all, Forall_forall. intros p Hp Hon.
  destruct (foreign_key d Hv p Hp) as (x & Hx & Hxid).
  apply (filter_nil_not_elem_of _ _ x Hf); [|done]. unfold has_id, on_match in *. congruence.
Qed.

(** X1. A request that is not answered 200 changes no row: whatever
    the request and its body, on a store that keeps the schema's
    constraints the tables after a 400, 404 or 500 are the tables
    before.  The two reading endpoints never change the store. *)
Theorem failed_request_keeps_tables (r : Sequential.request) (d : db) :
  valid d ->
  (code (snd (Sequential.handle r d)) <> 200 ->
   tables_kept d (fst (Sequential.handle r d))) /\
  fst (list_matches d) = d /\ (forall id, fst (get_match id d) = d).
Proof.
  intros Hv. split; [|split; [done | intros id; apply get_match_store]].
  destruct r as [| id | now [b|] | now id [b|] | id [b|] | id];
    unfold Sequential.handle, with_body.
  - done.
  - intros _. by rewrite get_match_store.
  - apply create_match_failed.
  - done.
  - apply join_failed_keeps.
  - done.
  - apply leave_failed_keeps.
  - done.
  - by apply delete_failed_keeps.
Qed.

Lemma handle_valid r d : valid d -> valid (fst (Sequential.handle r d)).
Proof.
  intros Hv.
  destruct r as [| id | now [b|] | now id [b|] | id [b|] | id];
    unfold Sequential.handle, with_body.
  - done.
  - by rewrite get_match_store.
  - by apply create_match_valid.
  - done.
  - by apply join_valid.
  - done.
  - by apply leave_valid.
  - done.
  - by apply delete_valid.
Qed.

(** X2. The constraints of the schema hold after every sequence of
    requests: a (match, name) pair has at most one player row, every
    player row belongs to a match of the store, match ids are
    distinct, and every match needs between 1 and 20 players. *)
Theorem requests_keep_schema (rs : list Sequential.request) (d : db) :
  valid d ->
  let d' := Sequential.run_all rs d in
  valid d' /\
  NoDup (key <$> players d') /\
  (forall p, p ∈ players d' -> exists m, m ∈ matches d' /\ m_id m = p_match_id p) /\
  NoDup (m_id <$> matches d') /\
  (forall m, m ∈ matches d' -> 0 < m_players_needed m <= 20).
Proof.
  intros Hv d'.
  assert (Hv' : valid d').
  { unfold d'. clear d'. revert d Hv. induction rs as [|r rs IH]; intros d Hv; [done |].
    simpl. apply IH. by apply handle_valid. }
  split; [done |]. by destruct Hv'.
Qed.

Lemma handle_sequence r d :
  matches_id_seq d <= matches_id_seq (fst (Sequential.handle r d)).
Proof.
  destruct r as [| id | now [b|] | now id [b|] | id [b|] | id];
    unfold Sequential.handle, with_body.
  - done.
  - by rewrite get_match_store.
  - unfold create_match. run_handler.
    destruct (_ || _); [done |].
    destruct (insert_match _ _ _ _ _ _ _ d) as [d' r] eqn:Hins.
    apply insert_match_outcome in Hins as (_ & _ & Hcase).
    assert (matches_id_seq d <= matches_id_seq d') as Hle.
    { destruct Hcase as [(_ & _ & [-> | [_ ->]]) | (m & _ & _ & _ & -> & _)]; lia. }
    by destruct r as [e|rows]; [|destruct (first rows)].
  - done.
  - rewrite join_spec. repeat case_match; simpl; try done;
      match goal with
      | Hins : insert_player _ _ _ _ _ = _ |- _ =>
          apply insert_player_outcome in Hins as (_ & Hseq & _)
      end; simpl in Hseq; lia.
  - done.
  - rewrite leave_spec. by repeat case_match.
  - done.
  - unfold delete. run_handler. unfold delete_players_of, delete_match.
    repeat case_match; simplify_eq; simpl; lia.
Qed.

Lemma run_all_sequence rs d :
  matches_id_seq d <= matches_id_seq (Sequential.run_all rs d).
Proof.
  revert d. induction rs as [|r rs IH]; intros d; [done |].
  simpl. etrans; [apply handle_sequence | apply IH].
Qed.

Lemma create_match_created now b d d' c :
  create_match now b d = (d', reply 200 (Created c)) ->
  exists m, c = format m /\ matches d' = matches d ++ [m] /\
            players d' = players d /\ m_id m = matches_id_seq d + 1 /\
            m_created_at m = now /\
            integer_in (JS.parseInt_value (b_playersNeeded b)) = Some (m_players_needed m).
Proof.
  unfold create_match. run_handler.
  destruct (_ || _); [done |].
  destruct (insert_match _ _ _ _ _ _ _ d) as [d1 r] eqn:Hins.
  apply insert_match_outcome in Hins as (Hps & _ & Hcase).
  destruct Hcase as [(_ & [e ->] & _) | (m & -> & Hms & Hid & _ & _ & _ & _ & Hpn & Hnow)];
    [done |].
  simpl. intros [= <- <-]. by exists m.
Qed.

(** X3. Match ids are never used again: a match created after any
    sequence of requests, deletions included, has an id greater than
    the id of every match the store had before the sequence. *)
Theorem match_ids_never_reused now b rs d d' c m :
  valid d -> m ∈ matches d ->
  create_match now b (Sequential.run_all rs d) = (d', reply 200 (Created c)) ->
  m_id m < c_id c.
Proof.
  intros Hv Hm Hcreate.
  apply create_match_created in Hcreate as (x & -> & _ & _ & Hid & _).
  pose proof (matches_serial d Hv m Hm). pose proof (run_all_sequence rs d).
  simpl. lia.
Qed.

End Failures.

(** On the scenario: B is refused on the full match. *)
Lemma failed_request_keeps_tables_witness :
  valid Scenario.joined /\
  (code (snd (Sequential.handle (H := iso) (Sequential.Join 102 "1" (Some Scenario.B))
                Scenario.joined)) <> 200 /\
   tables_kept Scenario.joined
     (fst (Sequential.handle (H := iso) (Sequential.Join 102 "1" (Some Scenario.B))
             Scenario.joined))) /\
  fst (list_matches Scenario.joined) = Scenario.joined /\
  (forall id, fst (get_match id Scenario.joined) = Scenario.joined).
Proof.
  assert (Hcode : code (snd (Sequential.handle (H := iso)
                               (Sequential.Join 102 "1" (Some Scenario.B))
                               Scenario.joined)) <> 200) by (vm_compute; discriminate).
  pose proof (failed_request_keeps_tables (H := iso)
                (Sequential.Join 102 "1" (Some Scenario.B)) Scenario.joined valid_joined)
    as (Hkept & Hlist & Hget).
  split; [exact valid_joined |]. split; [|split; [exact Hlist | exact Hget]].
  split; [exact Hcode | exact (Hkept Hcode)].
Defined.

(** On the scenario, from the empty store. *)
Lemma requests_keep_schema_witness :
  valid empty /\
  let d' := Sequential.run_all (H := iso) Scenario.requests empty in
  valid d' /\
  NoDup (key <$> players d') /\
  (forall p, p ∈ players d' -> exists m, m ∈ matches d' /\ m_id m = p_match_id p) /\
  NoDup (m_id <$> matches d') /\
  (forall m, m ∈ matches d' -> 0 < m_players_needed m <= 20).
Proof.
  split; [exact valid_empty |].
  exact (requests_keep_schema (H := iso) Scenario.requests empty valid_empty).
Defined.

(** The match of the scenario is deleted, and a new one created. *)
Lemma match_ids_never_reused_witness :
  valid Scenario.created /\ Scenario.new_row ∈ matches Scenario.created /\
  exists d' c,
    create_match (H := iso) 200 Scenario.turf
      (Sequential.run_all (H := iso) [Sequential.DeleteMatch "1"] Scenario.created)
    = (d', reply 200 (Created c)) /\
    m_id Scenario.new_row < c_id c.
Proof.
  assert (Hm : Scenario.new_row ∈ matches Scenario.created) by (vm_compute; left).
  split; [exact valid_created |]. split; [exact Hm |].
  eexists _, _. split; [vm_compute; reflexivity |].
  eapply (match_ids_never_reused (H := iso) 200 Scenario.turf
            [Sequential.DeleteMatch "1"] Scenario.created).
  - exact valid_created.
  - exact Hm.
  - vm_compute. reflexivity.
Defined.

(** ** What a Join writes, and what is read after it *)

Section Written.
Context `{Input}.

Lemma insert_player_inserted now mid n c d d' :
  insert_player now mid n c d = (d', inr tt) ->
  exists i n' c',
    integer_in mid = Some i /\ varchar255 n = Some n' /\ varchar255 c = Some c' /\
    d' = set_players d
           (players d ++ [{| p_id := players_id_seq d + 1; p_match_id := i;
                             p_name := n'; p_contact := c'; p_joined_at := now |}])
           (players_id_seq d + 1).
Proof.
  unfold insert_player. intros Hq.
  repeat case_match; simplify_eq.
  match goal with
  | Hn : nextval _ = Some _ |- _ => apply nextval_Some in Hn as [_ ->]
  end.
  by eexists _, _, _.
Qed.


(** X4. What Join returns is what the store then has: after a Join
    that succeeded, GetMatch with the same id returns the very
    aggregate the Join returned, and ListMatches has it among its
    rows. *)
Theorem join_then_read now id b d d1 a :
  join now id b d = (d1, reply 200 (Row a)) ->
  get_match id d1 = (d1, reply 200 (Row a)) /\
  exists l, list_matches d1 = (d1, reply 200 (Rows l)) /\ a ∈ l.
Proof.
  intros Hjoin.
  apply join_success_inv in Hjoin
    as (i & m & ms & Hint & _ & _ & Hf & _ & _ & Hins & ->).
  apply insert_player_outcome in Hins as (Hms & _).
  split.
  - unfold get_match. run_handler. unfold select_aggregate. by rewrite Hint, Hms, Hf.
  - eexists. split; [apply list_matches_rows |].
    apply elem_of_list_matches. exists m. split; [done |]. rewrite Hms.
    assert (Hm : m ∈ filter (has_id i) (matches d)) by (rewrite Hf; left).
    by apply list_elem_of_filter in Hm as [_ Hm].
Qed.


Lemma unknown_match_replies id mid d :
  valid d -> JS.parseInt id = Some mid -> int4 mid = true ->
  (forall m, m ∈ matches d -> m_id m <> mid) ->
  get_match id d = (d, match_not_found) /\
  (forall now b,
     JS.present (jb_name b) = true -> JS.present (jb_contact b) = true ->
     join now id b d = (d, match_not_found)) /\
  (forall n,
     JS.present n = true -> text_in (text n) = true ->
     leave id n d = (d, player_not_found)).
Proof.
  intros Hv Hid Hint Hno.
  assert (Hi : integer_in (JS.parseInt id) = Some mid).
  { rewrite Hid. unfold integer_in. by rewrite Hint. }
  split; [|split].
  - unfold get_match. run_handler. unfold select_aggregate.
    by rewrite Hi, (filter_has_id_none (matches d) mid Hno).
  - intros now b Hn Hc. rewrite join_spec, Hn, Hc, Hi. cbn [negb orb].
    by rewrite (filter_has_id_none (matches d) mid Hno).
  - intros n Hn Ht. rewrite leave_spec, Hn, Hi, Ht. cbn [negb].
    assert (Hnone : forall p, p ∈ players d -> ~ named mid (text n) p).
    { intros p Hp [Hpm _]. destruct (foreign_key d Hv p Hp) as (x & Hx & Hxid).
      apply (Hno x Hx). congruence. }
    rewrite bool_decide_eq_false_2.
    2:{ intros (p & Hp & Hnamed)%Exists_exists. by apply (Hnone p). }
    rewrite filter_all; [by rewrite set_players_same |].
    apply Forall_forall. intros p Hp. by apply Hnone.
Qed.

(** X6. An id that no match has: GetMatch and Join answer 404 "Match
    not found", Leave answers 404 "Player not found in this match",
    and the store is as it was. *)
Theorem unknown_match_is_not_found id mid d :
  valid d -> JS.parseInt id = Some mid -> int4 mid = true ->
  (forall m, m ∈ matches d -> m_id m <> mid) ->
  get_match id d = (d, match_not_found) /\
  (forall now b,
     JS.present (jb_name b) = true -> JS.present (jb_contact b) = true ->
     join now id b d = (d, match_not_found)) /\
  (forall n,
     JS.present n = true -> text_in (text n) = true ->
     leave id n d = (d, player_not_found)).
Proof. apply unknown_match_replies. Qed.

End Written.


(** A joins, and the match is read. *)
Lemma join_then_read_witness :
  exists d1 a,
    join (H := iso) 101 "1" Scenario.A Scenario.created = (d1, reply 200 (Row a)) /\
    get_match "1" d1 = (d1, reply 200 (Row a)) /\
    exists l, list_matches d1 = (d1, reply 200 (Rows l)) /\ a ∈ l.
Proof.
  eexists _, _. split; [vm_compute; reflexivity |].
  eapply (join_then_read (H := iso) 101 "1" Scenario.A Scenario.created).
  vm_compute. reflexivity.
Defined.


(** No match has the id 42. *)
Lemma unknown_match_is_not_found_witness :
  valid Scenario.joined /\ JS.parseInt "42" = Some 42 /\ int4 42 = true /\
  (forall m, m ∈ matches Scenario.joined -> m_id m <> 42) /\
  get_match "42" Scenario.joined = (Scenario.joined, match_not_found) /\
  (forall now b,
     JS.present (jb_name b) = true -> JS.present (jb_contact b) = true ->
     join (H := iso) now "42" b Scenario.joined = (Scenario.joined, match_not_found)) /\
  (forall n,
     JS.present n = true -> text_in (Input := iso) (text n) = true ->
     leave (H := iso) "42" n Scenario.joined = (Scenario.joined, player_not_found)).
Proof.
  assert (Hno : forall m, m ∈ matches Scenario.joined -> m_id m <> 42).
  { intros m Hm. apply list_elem_of_singleton in Hm as ->. discriminate. }
  split; [exact valid_joined |]. split; [reflexivity |]. split; [reflexivity |].
  split; [exact Hno |].
  exact (unknown_match_is_not_found (H := iso) "42" 42 Scenario.joined
           valid_joined eq_refl eq_refl Hno).
Defined.

(** ** Leaving and deleting, again *)

Section Again.
Context `{Input}.

(** X8. Leave is not repeatable: after a Leave that succeeded, the
    same Leave answers 404 "Player not found in this match" and
    changes nothing. *)
Theorem leave_twice id n d d1 :
  leave id n d = (d1, reply 200 (Message "Left match successfully")) ->
  leave id n d1 = (d1, player_not_found).
Proof.
  rewrite !leave_spec.
  destruct (negb (JS.present n)); [done |].
  destruct (integer_in (JS.parseInt id)) as [i|]; [|done].
  destruct (text_in (text n)); [|done].
  case_bool_decide as Hex; [|done]. intros [= <-]. simpl.
  rewrite filter_filter_same.
  rewrite bool_decide_eq_false_2; [done |].
  intros (p & [Hnot _]%list_elem_of_filter & Hp)%Exists_exists. by apply Hnot.
Qed.

(** X9. Join and then Leave give the tables back: when a Join has
    succeeded, Leave with the same id and name succeeds, and the
    matches and the players are those before the Join, in the same
    order. *)
Theorem join_then_leave now id b d d1 a :
  fits (text (jb_name b)) = true ->
  join now id b d = (d1, reply 200 (Row a)) ->
  exists d2,
    leave id (jb_name b) d1 = (d2, reply 200 (Message "Left match successfully")) /\
    tables_kept d d2.
Proof.
  intros Hfn Hjoin.
  apply join_success_inv in Hjoin
    as (i & m & ms & Hint & Hn & _ & _ & _ & Ht & Hins & _).
  apply insert_player_outcome in Hins as (Hms & _ & [(_ & [e He] & _) | Hok]); [done |].
  destruct Hok as (p & j & _ & Hps & Hj & Hpm & Hname & _ & _ & _ & Hfresh & _).
  rewrite (fits_varchar255 _ Hfn) in Hname. injection Hname as Hname.
  apply integer_in_Some in Hj as [[= <-] _].
  rewrite leave_spec, Hn, Hint, Ht. cbn [negb].
  eexists. split; [f_equal |].
  - rewrite bool_decide_eq_true_2; [done |].
    apply Exists_exists. exists p. split; [rewrite Hps; apply elem_of_app; right; left |].
    by split.
  - split; [done |]. simpl. rewrite Hps, filter_app.
    rewrite (filter_all _ (players d)).
    2:{ apply Forall_forall. intros x Hx. rewrite Hname. by apply Hfresh. }
    rewrite filter_cons_False by (intros Hnot; by apply Hnot).
    by rewrite app_nil_r.
Qed.

Lemma delete_deleted id d d1 :
  delete id d = (d1, reply 200 (Message "Match deleted successfully")) ->
  exists mid, integer_in (JS.parseInt id) = Some mid /\
              forall m, m ∈ matches d1 -> m_id m <> mid.
Proof.
  unfold delete. run_handler. unfold delete_players_of, delete_match.
  destruct (integer_in (JS.parseInt id)) as [i|]; [|done]. simpl.
  destruct (filter (has_id i) (matches d)) as [|m ms]; [done |].
  simpl. intros [= <-]. exists i. split; [done |]. simpl.
  by intros x [Hx _]%list_elem_of_filter.
Qed.

Lemma delete_unknown id mid d :
  valid d -> integer_in (JS.parseInt id) = Some mid ->
  (forall m, m ∈ matches d -> m_id m <> mid) ->
  delete id d = (d, match_not_found).
Proof.
  intros Hv Hi Hno.
  unfold delete. run_handler. unfold delete_players_of, delete_match. rewrite Hi. simpl.
  rewrite (filter_has_id_none (matches d) mid Hno). simpl.
  rewrite filter_all; [by rewrite set_players_same |].
  apply Forall_forall. intros p Hp Hon.
  destruct (foreign_key d Hv p Hp) as (y & Hy & Hyid).
  apply (Hno y Hy). unfold on_match in Hon. congruence.
Qed.

(** X10. A deleted match is gone for every endpoint: after a
    DeleteMatch that succeeded, DeleteMatch, GetMatch and Join with
    the same id answer 404 "Match not found", Leave answers 404
    "Player not found in this match", and none of them changes the
    store. *)
Theorem deleted_match_is_gone id d d1 :
  valid d ->
  delete id d = (d1, reply 200 (Message "Match deleted successfully")) ->
  delete id d1 = (d1, match_not_found) /\
  get_match id d1 = (d1, match_not_found) /\
  (forall now b,
     JS.present (jb_name b) = true -> JS.present (jb_contact b) = true ->
     join now id b d1 = (d1, match_not_found)) /\
  (forall n,
     JS.present n = true -> text_in (text n) = true ->
     leave id n d1 = (d1, player_not_found)).
Proof.
  intros Hv Hdel.
  assert (Hv1 : valid d1).
  { pose proof (delete_valid id d Hv) as Hv1. by rewrite Hdel in Hv1. }
  apply delete_deleted in Hdel as (mid & Hi & Hno).
  split; [by apply (delete_unknown id mid) |].
  apply integer_in_Some in Hi as [Hid Hint].
  by apply (unknown_match_replies id mid).
Qed.

End Again.

(** A leaves, and leaves again. *)
Lemma leave_twice_witness :
  exists d1,
    leave (H := iso) "1" (Some "A") Scenario.joined
    = (d1, reply 200 (Message "Left match successfully")) /\
    leave (H := iso) "1" (Some "A") d1 = (d1, player_not_found).
Proof.
  eexists. split; [vm_compute; reflexivity |].
  eapply (leave_twice (H := iso) "1" (Some "A") Scenario.joined).
  vm_compute. reflexivity.
Defined.

(** A joins and leaves. *)
Lemma join_then_leave_witness :
  fits (text (jb_name Scenario.A)) = true /\
  exists d1 a,
    join (H := iso) 101 "1" Scenario.A Scenario.created = (d1, reply 200 (Row a)) /\
    exists d2,
      leave (H := iso) "1" (jb_name Scenario.A) d1
      = (d2, reply 200 (Message "Left match successfully")) /\
      tables_kept Scenario.created d2.
Proof.
  split; [reflexivity |].
  eexists _, _. split; [vm_compute; reflexivity |].
  eapply (join_then_leave (H := iso) 101 "1" Scenario.A Scenario.created).
  - reflexivity.
  - vm_compute. reflexivity.
Defined.

(** The match of the scenario is deleted. *)
Lemma deleted_match_is_gone_witness :
  valid Scenario.joined /\
  exists d1,
    delete "1" Scenario.joined = (d1, reply 200 (Message "Match deleted successfully")) /\
    delete "1" d1 = (d1, match_not_found) /\
    get_match "1" d1 = (d1, match_not_found) /\
    (forall now b,
       JS.present (jb_name b) = true -> JS.present (jb_contact b) = true ->
       join (H := iso) now "1" b d1 = (d1, match_not_found)) /\
    (forall n,
       JS.present n = true -> text_in (Input := iso) (text n) = true ->
       leave (H := iso) "1" n d1 = (d1, player_not_found)).
Proof.
  split; [exact valid_joined |].
  eexists. split; [vm_compute; reflexivity |].
  eapply (deleted_match_is_gone (H := iso) "1" Scenario.joined).
  - exact valid_joined.
  - vm_compute. reflexivity.
Defined.

(** ** Numbers in decimal *)

Section Decimal.
Context `{Input}.

Lemma digit_char n :
  0 <= n < 10 ->
  let c := ascii_of_N (Z.to_N (48 + n)) in
  JS.decimal c = true /\ JS.digit_value c = n.
Proof.
  intros Hn c.
  assert (Hc : JS.code c = 48 + n).
  { unfold JS.code, c. rewrite N_ascii_embedding by lia. lia. }
  split; [apply decimal_code; lia |].
  unfold JS.digit_value. rewrite Hc.
  assert ((48 <=? 48 + n) && (48 + n <=? 57) = true) as ->; [|lia].
  apply andb_true_iff. split; apply Z.leb_le; lia.
Qed.

Lemma digits_of_value f n acc k :
  0 <= n < 10 ^ Z.of_nat f -> k = 0 ->
  fold_left (fun a d => a * 10 + d) (JS.take_digits 10 (JS.digits_of f n acc)) k
  = fold_left (fun a d => a * 10 + d) (JS.take_digits 10 acc) n.
Proof.
  intros Hn ->. revert n acc Hn. induction f as [|f IH]; intros n acc Hn.
  - simpl in *. by assert (n = 0) as -> by lia.
  - cbn [JS.digits_of]. cbv zeta.
    assert (Hmod : 0 <= n mod 10 < 10) by (apply Z.mod_pos_bound; lia).
    destruct (digit_char (n mod 10) Hmod) as [Hdec Hval].
    assert (Hhead : forall r,
              fold_left (fun a d => a * 10 + d)
                (JS.take_digits 10 (String (ascii_of_N (Z.to_N (48 + n mod 10))) r)) 0
              = fold_left (fun a d => a * 10 + d) (JS.take_digits 10 r) (n mod 10)).
    { intros r. cbn [JS.take_digits]. unfold JS.decimal in Hdec. rewrite Hdec, Hval. done. }
    destruct (Z.eqb_spec (n / 10) 0) as [Hq | Hq].
    + rewrite Hhead. f_equal. pose proof (Z.div_mod n 10). lia.
    + rewrite IH.
      * cbn [JS.take_digits]. unfold JS.decimal in Hdec. rewrite Hdec, Hval. simpl.
        f_equal. pose proof (Z.div_mod n 10). lia.
      * split; [apply Z.div_pos; lia |].
        apply Z.div_lt_upper_bound; [lia |].
        replace (10 * 10 ^ Z.of_nat f) with (10 ^ Z.of_nat (S f)); [lia |].
        rewrite Nat2Z.inj_succ, Z.pow_succ_r by lia. done.
Qed.

Lemma digits_of_decimal f n acc :
  0 <= n -> JS.all_decimal acc = true -> JS.all_decimal (JS.digits_of f n acc) = true.
Proof.
  revert n acc. induction f as [|f IH]; intros n acc Hn Hacc; [done |].
  cbn [JS.digits_of]. cbv zeta.
  assert (Hmod : 0 <= n mod 10 < 10) by (apply Z.mod_pos_bound; lia).
  destruct (digit_char (n mod 10) Hmod) as [Hdec _].
  assert (JS.all_decimal (String (ascii_of_N (Z.to_N (48 + n mod 10))) acc) = true) as Hacc'.
  { cbn [JS.all_decimal]. by rewrite Hdec. }
  destruct (n / 10 =? 0); [done |].
  apply IH; [apply Z.div_pos; lia | done].
Qed.

Lemma digits_of_cons f n acc :
  exists a r, JS.digits_of (S f) n acc = String a r.
Proof.
  revert n acc. induction f as [|f IH]; intros n acc.
  - cbn [JS.digits_of]. cbv zeta. destruct (n / 10 =? 0); by eexists _, _.
  - change (JS.digits_of (S (S f)) n acc)
      with (let acc' := String (ascii_of_N (Z.to_N (48 + n mod 10))) acc in
            if n / 10 =? 0 then acc' else JS.digits_of (S f) (n / 10) acc').
    cbv zeta. destruct (n / 10 =? 0); [by eexists _, _ | apply IH].
Qed.

(** After the sign: decimal digits read as their value. *)
Lemma parse_unsigned sign a ds :
  JS.all_decimal (String a ds) = true ->
  (let '(R, s2) := JS.strip_prefix (String a ds) in
   match JS.take_digits R s2 with
   | [] => None
   | l => Some (sign * JS.digits_value R l)
   end)
  = Some (sign * JS.digits_value 10 (JS.take_digits 10 (String a ds))).
Proof.
  intros Hd. cbn [JS.all_decimal] in Hd. apply andb_true_iff in Hd as [Ha Hds].
  pose proof (strip_prefix_decimal a ds "" Hds) as Hp.
  rewrite append_empty_r in Hp. rewrite Hp by (by intros (_ & _ & ?)).
  cbn [JS.take_digits]. unfold JS.decimal in Ha. by rewrite Ha.
Qed.

Lemma trimStart_minus s : JS.trimStart (String "-" s) = String "-" s.
Proof. destruct s as [|b [|c r]]; reflexivity. Qed.

(** What [toString] prints, [parseInt] reads back. *)
Lemma parseInt_toString z :
  JS.safe_integer z -> JS.parseInt (JS.Number_toString z) = Some z.
Proof.
  unfold JS.safe_integer, JS.MAX_SAFE_INTEGER. intros Hz.
  assert (Hpow : 2 ^ 53 - 1 < 10 ^ Z.of_nat 17) by (vm_compute; reflexivity).
  unfold JS.Number_toString. destruct (Z.ltb_spec z 0) as [Hneg | Hpos].
  - destruct (digits_of_cons 16 (- z) "") as (a & r & Hs).
    pose proof (digits_of_decimal 17 (- z) "" ltac:(lia) eq_refl) as Hd.
    pose proof (digits_of_value 17 (- z) "" 0 ltac:(lia) eq_refl) as Hv.
    rewrite Hs in Hd, Hv |- *.
    unfold JS.parseInt. rewrite trimStart_minus. cbn [JS.strip_sign].
    change (JS.code "-" =? 45) with true. cbv iota.
    rewrite (parse_unsigned (-1) a r Hd). unfold JS.digits_value. rewrite Hv.
    simpl. f_equal. lia.
  - destruct (digits_of_cons 16 z "") as (a & r & Hs).
    pose proof (digits_of_decimal 17 z "" ltac:(lia) eq_refl) as Hd.
    pose proof (digits_of_value 17 z "" 0 ltac:(lia) eq_refl) as Hv.
    rewrite Hs in Hd, Hv |- *.
    unfold JS.parseInt.
    assert (Ha : JS.decimal a = true).
    { cbn [JS.all_decimal] in Hd. by apply andb_true_iff in Hd as [Ha _]. }
    rewrite trimStart_decimal, strip_sign_decimal by done.
    rewrite (parse_unsigned 1 a r Hd). unfold JS.digits_value. rewrite Hv.
    simpl. f_equal. lia.
Qed.

End Decimal.

(** ** Creation, by the numbers *)

Section Numbers.
Context `{Input}.

Lemma get_match_present id m d :
  valid d -> m ∈ matches d -> JS.parseInt id = Some (m_id m) ->
  get_match id d = (d, reply 200 (Row (build_aggregate (players d) m))).
Proof.
  intros Hv Hm Hid. unfold get_match. run_handler. unfold select_aggregate.
  rewrite Hid, (integer_in_valid d m) by done.
  rewrite filter_has_id_unique; [done | by destruct Hv | done].
Qed.

(** X11. The id that CreateMatch returns addresses the new match:
    GetMatch with that id in decimal finds the match just created,
    with the fields the creation returned and an empty player
    list. *)
Theorem created_match_is_found now b d d1 c :
  valid d ->
  create_match now b d = (d1, reply 200 (Created c)) ->
  exists a,
    get_match (JS.Number_toString (c_id c)) d1 = (d1, reply 200 (Row a)) /\
    format (row a) = c /\ creator a = c_creator c /\ players_json a = Some [].
Proof.
  intros Hv Hcreate.
  assert (Hv1 : valid d1).
  { pose proof (create_match_valid now b d Hv) as Hv1. by rewrite Hcreate in Hv1. }
  apply create_match_created in Hcreate as (m & -> & Hms & Hps & Hid & _).
  assert (Hm : m ∈ matches d1) by (rewrite Hms; apply elem_of_app; right; left).
  pose proof (matches_serial d1 Hv1 m Hm) as Hserial.
  pose proof (matches_seq_range d1 Hv1) as Hrange.
  exists (build_aggregate (players d1) m). split; [|split; [done | split; [done |]]].
  - apply get_match_present; [done | done |]. simpl.
    apply parseInt_toString. unfold JS.safe_integer, JS.MAX_SAFE_INTEGER, INT4_MAX in *.
    assert (2147483647 <= 2 ^ 53 - 1) by (vm_compute; discriminate). lia.
  - rewrite players_json_build, Hps. rewrite filter_none; [done |].
    intros p Hp Hon. destruct (foreign_key d Hv p Hp) as (x & Hx & Hxid).
    pose proof (matches_serial d Hv x Hx). unfold on_match in Hon. lia.
Qed.


End Numbers.

(** The match of the scenario, by the id its creation returned. *)
Lemma created_match_is_found_witness :
  valid empty /\
  exists d1 c,
    create_match (H := iso) 100 Scenario.turf empty = (d1, reply 200 (Created c)) /\
    exists a,
      get_match (JS.Number_toString (c_id c)) d1 = (d1, reply 200 (Row a)) /\
      format (row a) = c /\ creator a = c_creator c /\ players_json a = Some [].
Proof.
  split; [exact valid_empty |].
  eexists _, _. split; [vm_compute; reflexivity |].
  eapply (created_match_is_found (H := iso) 100 Scenario.turf empty).
  - exact valid_empty.
  - vm_compute. reflexivity.
Defined.


(** ** Texts that do not fit *)

Section TooLong.
Context `{Input}.

Lemma insert_match_inserted now l dt t pn cn cc d d' rows :
  insert_match now l dt t pn cn cc d = (d', inr rows) ->
  exists l' cn' cc',
    varchar255 l = Some l' /\ varchar255 cn = Some cn' /\ varchar255 cc = Some cc'.
Proof.
  unfold insert_match. intros Hq. repeat case_match; simplify_eq. by eexists _, _, _.
Qed.

(** X19. A text that does not fit its VARCHAR(255) column is never
    stored: a Join whose name or contact is too long, and a
    CreateMatch whose location or creator name or contact is too
    long, are not answered 200, and the tables stay as they were. *)
Theorem text_too_long_is_refused now d :
  (forall id b,
     varchar255 (text (jb_name b)) = None \/ varchar255 (text (jb_contact b)) = None ->
     code (snd (join now id b d)) <> 200 /\ tables_kept d (fst (join now id b d))) /\
  (forall b,
     varchar255 (text (b_location b)) = None
     \/ varchar255 (text (cb_name (creator_of b))) = None
     \/ varchar255 (text (cb_contact (creator_of b))) = None ->
     code (snd (create_match now b d)) <> 200 /\
     tables_kept d (fst (create_match now b d))).
Proof.
  split.
  - intros id b Hlong.
    assert (Hcode : code (snd (join now id b d)) <> 200);
      [|split; [done | by apply join_failed_keeps]].
    rewrite join_spec. repeat case_match; simpl; try done.
    match goal with
    | Hins : insert_player _ _ _ _ _ = (_, inr ?u) |- _ =>
        destruct u; apply insert_player_inserted in Hins as (i & n' & c' & _ & Hn & Hc & _)
    end.
    destruct Hlong; congruence.
  - intros b Hlong.
    assert (Hcode : code (snd (create_match now b d)) <> 200);
      [|split; [done | by apply create_match_failed]].
    unfold create_match. run_handler.
    destruct (_ || _); [done |].
    destruct (insert_match _ _ _ _ _ _ _ d) as [d' [e|rows]] eqn:Hins; [done |].
    apply insert_match_inserted in Hins as (l' & cn' & cc' & Hl & Hcn & Hcc).
    destruct Hlong as [? | [? | ?]]; congruence.
Qed.

End TooLong.

(** A name of 256 letters. *)
Lemma text_too_long_is_refused_witness :
  (varchar255 (text (jb_name Samples.long)) = None
   \/ varchar255 (text (jb_contact Samples.long)) = None) /\
  code (snd (join (H := iso) 101 "1" Samples.long Scenario.created)) <> 200 /\
  tables_kept Scenario.created (fst (join (H := iso) 101 "1" Samples.long Scenario.created)).
Proof.
  assert (Hlong : varchar255 (text (jb_name Samples.long)) = None
                  \/ varchar255 (text (jb_contact Samples.long)) = None)
    by (left; vm_compute; reflexivity).
  split; [exact Hlong |].
  exact (proj1 (text_too_long_is_refused (H := iso) 101 Scenario.created)
           "1" Samples.long Hlong).
Defined.

(** ** Two Joins at once, and the schema *)

Section ConcurrentSchema.
Context `{Input}.

Lemma join_step_valid now s d :
  valid d ->
  valid (fst (join_step now s d)) /\ matches (fst (join_step now s d)) = matches d.
Proof.
  intros Hv. destruct s as [id b | mid n c | mid n c | mid | r]; unfold join_step.
  - unfold select_match_count. repeat case_match; by simplify_eq.
  - unfold select_player. repeat case_match; by simplify_eq.
  - destruct (insert_player now mid n c d) as [d' r] eqn:Hins.
    assert (valid d') by (by eapply valid_insert_player).
    apply insert_player_outcome in Hins as (Hms & _).
    by destruct r.
  - unfold select_aggregate. repeat case_match; by simplify_eq.
  - done.
Qed.

Lemma world_step_valid t w :
  valid (store w) ->
  valid (store (world_step t w)) /\ matches (store (world_step t w)) = matches (store w).
Proof.
  intros Hv. destruct t as [[] now]; unfold world_step.
  - pose proof (join_step_valid now (first_join w) (store w) Hv) as Hstep.
    by destruct (join_step now (first_join w) (store w)).
  - pose proof (join_step_valid now (second_join w) (store w) Hv) as Hstep.
    by destruct (join_step now (second_join w) (store w)).
Qed.

Lemma run_cons t schedule w : run (t :: schedule) w = run schedule (world_step t w).
Proof. done. Qed.

(** X18. However the statements of two Joins interleave, the store
    keeps the constraints of the schema: there is never a second
    row for a (match, name) pair, not even when both Joins carry the
    same name, and never a player without its match; the matches
    are untouched. *)
Theorem interleaved_joins_keep_schema schedule w :
  valid (store w) ->
  let w' := run schedule w in
  valid (store w') /\ NoDup (key <$> players (store w')) /\
  matches (store w') = matches (store w).
Proof.
  intros Hv w'.
  assert (Hboth : valid (store w') /\ matches (store w') = matches (store w)).
  { unfold w'. clear w'. revert w Hv.
    induction schedule as [|t sched IH]; intros w Hv; [done |].
    rewrite run_cons.
    destruct (world_step_valid t w Hv) as [Hv1 Hm1].
    destruct (IH (world_step t w) Hv1) as [Hv' Hm'].
    split; [done | congruence]. }
  destruct Hboth as [Hv' Hm']. split; [done |]. split; [by destruct Hv' | done].
Qed.

End ConcurrentSchema.

(** The same name twice, in turns: one row, and a 500 for the
    other Join. *)
Lemma interleaved_joins_keep_schema_witness :
  valid (store Samples.twice) /\
  let w' := run (H := iso) Scenario.interleaved Samples.twice in
  valid (store w') /\ NoDup (key <$> players (store w')) /\
  matches (store w') = matches (store Samples.twice).
Proof.
  split; [exact valid_created |].
  exact (interleaved_joins_keep_schema (H := iso) Scenario.interleaved Samples.twice
           valid_created).
Defined.

Example same_name_in_turns :
  let w' := run (H := iso) Scenario.interleaved Samples.twice in
  succeeded (first_join w') = true /\ second_join w' = Replied join_failed /\
  length (players (store w')) = 1%nat.
Proof. repeat split; reflexivity. Qed.

(** ** Headers, tokens and logins *)

Section Login.
Context `{Auth.Bcrypt}.

Lemma without_prefix_append p t : Auth.without_prefix p (p +:+ t) = Some t.
Proof.
  induction p as [|a p IH]; [by destruct t |].
  rewrite append_String. cbn [Auth.without_prefix]. by rewrite Ascii.eqb_refl.
Qed.

Lemma without_prefix_Some p s r : Auth.without_prefix p s = Some r -> s = p +:+ r.
Proof.
  revert s. induction p as [|a p IH]; intros s.
  - destruct s; cbn [Auth.without_prefix]; intros [= <-]; reflexivity.
  - destruct s as [|b s]; cbn [Auth.without_prefix]; [done |].
    destruct (Ascii.eqb_spec a b) as [-> | _]; [|done].
    intros Hr. rewrite append_String. f_equal. by apply IH.
Qed.

Lemma replace_prefix p r t : Auth.replace p r (p +:+ t) = r +:+ t.
Proof.
  destruct (p +:+ t) as [|a s] eqn:E; cbn [Auth.replace]; by rewrite <- E, without_prefix_append.
Qed.

Lemma no_space_append p r :
  Tokens.no_space (p +:+ r) = Tokens.no_space p && Tokens.no_space r.
Proof.
  induction p as [|a p IH]; [done |].
  rewrite append_String. cbn [Tokens.no_space]. by rewrite IH, andb_assoc.
Qed.

Lemma replace_absent s :
  Tokens.no_space s = true -> Auth.replace "Bearer " "" s = s.
Proof.
  induction s as [|a s IH]; intros Hs; [done |].
  cbn [Auth.replace].
  destruct (Auth.without_prefix "Bearer " (String a s)) as [r|] eqn:Hp.
  - apply without_prefix_Some in Hp. rewrite Hp, no_space_append in Hs. done.
  - f_equal. apply IH. cbn [Tokens.no_space] in Hs. by apply andb_true_iff in Hs as [_ ?].
Qed.

Lemma bearer_header_aux :
  (forall t, Auth.bearer (Some ("Bearer " +:+ t)) = Some t) /\
  (forall h, Tokens.no_space h = true -> Auth.bearer (Some h) = Some h).
Proof.
  split.
  - intros t.
    change (Auth.bearer (Some ("Bearer " +:+ t)))
      with (Some (Auth.replace "Bearer " "" ("Bearer " +:+ t))).
    by rewrite replace_prefix.
  - intros h Hh.
    change (Auth.bearer (Some h)) with (Some (Auth.replace "Bearer " "" h)).
    by rewrite replace_absent.
Qed.

(** X17. The Authorization header: a header that starts with
    "Bearer " gives what follows as the token, whatever that is; a
    header without a space is taken whole, so the scheme is not
    required; no header gives no token. *)
Theorem bearer_header :
  (forall t, Auth.bearer (Some ("Bearer " +:+ t)) = Some t) /\
  (forall h, Tokens.no_space h = true -> Auth.bearer (Some h) = Some h) /\
  Auth.bearer None = None.
Proof. destruct bearer_header_aux as [Hp Hw]. by split; [|split]. Qed.

Lemma generateToken_session random now :
  exists r, Tokens.generateToken random now = String "s" r.
Proof. unfold Tokens.generateToken. rewrite append_String. by eexists. Qed.

Lemma select_user_key st u :
  users_key st -> u ∈ Auth.users st ->
  Auth.select_user (Auth.u_id u) st = [Auth.public u].
Proof.
  intros Hkey Hu. unfold Auth.select_user.
  rewrite (filter_key_unique Auth.u_id _ (Auth.users st) u); [done | done | done |].
  by intros y.
Qed.

Lemma login_session token n password st st1 r :
  Auth.login token n password st = (st1, r) -> Auth.code r = 200 ->
  exists u, u ∈ Auth.users st /\ Auth.u_username u = default "" n /\
            Auth.compare (default "" password) (Auth.u_password_hash u) = true /\
            r = Auth.reply 200 (Auth.Session token (Auth.public u)) /\
            st1 = {| Auth.sessions := <[token := Auth.u_id u]> (Auth.sessions st);
                     Auth.users := Auth.users st |}.
Proof.
  unfold Auth.login. intros Hlogin Hcode.
  destruct (negb (JS.present n) || negb (JS.present password));
    [injection Hlogin as <- <-; discriminate |].
  destruct (head (Auth.select_by_username (default "" n) st)) as [u|] eqn:Hu;
    [|injection Hlogin as <- <-; discriminate].
  destruct (Auth.compare (default "" password) (Auth.u_password_hash u)) eqn:Hc;
    [|injection Hlogin as <- <-; discriminate].
  simpl in Hlogin. injection Hlogin as <- <-. exists u.
  apply head_Some_elem_of in Hu. apply list_elem_of_filter in Hu as [Hname Hin]. done.
Qed.

(** X13. Login and then GetCurrentUser: when a login succeeds with
    the token that [generateToken] made, a request carrying
    "Bearer " and that token is answered with the very user the
    login returned, on a user table with distinct ids other than
    0. *)
Theorem login_then_me random now n password st st1 u :
  users_key st -> (forall x, x ∈ Auth.users st -> Auth.u_id x <> 0) ->
  let token := Tokens.generateToken random now in
  Auth.login token n password st = (st1, Auth.reply 200 (Auth.Session token u)) ->
  Auth.me (Some ("Bearer " +:+ token)) st1 = Auth.reply 200 (Auth.User u).
Proof.
  intros Hkey Hids token Hlogin.
  apply login_session in Hlogin as (x & Hx & _ & _ & [= ->] & ->); [|done].
  destruct (generateToken_session random now) as (r & Htok). fold token in Htok.
  unfold Auth.me. rewrite (proj1 bearer_header_aux token). simpl.
  rewrite Htok. simpl. rewrite <- Htok.
  unfold Auth.getUserFromToken. simpl. rewrite lookup_insert_eq.
  assert ((Auth.u_id x =? 0) = false) as -> by (apply Z.eqb_neq; by apply Hids).
  change (Auth.select_user (Auth.u_id x) _)
    with (Auth.select_user (Auth.u_id x) st).
  by rewrite select_user_key.
Qed.

End Login.

Section Refusals.
Context `{Auth.Bcrypt}.

(** X14. Logout touches the presented token only: it is always
    answered 200, it leaves the users alone, and for every header
    that carries another token GetCurrentUser answers after the
    logout what it answered before. *)
Theorem logout_spares_others (a a' : option string) st :
  Auth.bearer a <> Auth.bearer a' ->
  Auth.me a' (fst (Auth.logout a st)) = Auth.me a' st /\
  snd (Auth.logout a st) = Auth.reply 200 Auth.Success /\
  Auth.users (fst (Auth.logout a st)) = Auth.users st.
Proof.
  intros Hne. unfold Auth.logout.
  destruct (Auth.bearer a) as [t|] eqn:Ha; [|done].
  simpl. destruct (String.eqb t ""); [done |]. simpl.
  split; [|done].
  unfold Auth.me. destruct (Auth.bearer a') as [t'|]; [|done].
  destruct (negb (JS.present (Some t'))); [done |].
  unfold Auth.getUserFromToken. simpl.
  rewrite lookup_delete_ne by congruence. done.
Qed.

(** X15. A login that is refused creates no session and changes
    nothing; and when username and password are both given, the
    refusal is the same 401 "Invalid username or password" whether
    no user has the username or the password is wrong. *)
Theorem login_refused token n password st :
  Auth.code (snd (Auth.login token n password st)) <> 200 ->
  fst (Auth.login token n password st) = st /\
  (JS.present n = true -> JS.present password = true ->
   snd (Auth.login token n password st)
   = Auth.reply 401 (Auth.Error "Invalid username or password")).
Proof.
  unfold Auth.login.
  destruct (JS.present n), (JS.present password); simpl; try done.
  destruct (head (Auth.select_by_username (default "" n) st)) as [u|]; [|done].
  by destruct (Auth.compare (default "" password) (Auth.u_password_hash u)).
Qed.

(** X16. A username is taken once: when a signup has succeeded and
    the store has returned the row with the username of the
    request, every further signup with that username is answered
    400 "Username already taken" and changes nothing, whatever its
    other fields. *)
Theorem signup_username_taken token inserted n password name contact st st1 u :
  Auth.signup token inserted n password name contact st
  = (st1, Auth.reply 200 (Auth.Session token u)) ->
  (forall row, inserted = Some row -> Auth.u_username row = default "" n) ->
  forall token' inserted' password' name' contact',
    JS.present password' = true -> JS.present name' = true ->
    JS.present contact' = true ->
    Auth.signup token' inserted' n password' name' contact' st1
    = (st1, Auth.reply 400 (Auth.Error "Username already taken")).
Proof.
  unfold Auth.signup. intros Hsignup Hrow token' inserted' password' name' contact' Hp Hn Hc.
  destruct (JS.present n); [|simpl in Hsignup; discriminate].
  rewrite Hp, Hn, Hc. cbn [negb orb].
  cbn [negb orb] in Hsignup.
  destruct (negb (JS.present password) || negb (JS.present name)
            || negb (JS.present contact)); [discriminate |].
  destruct (0 <? length (Auth.select_by_username (default "" n) st))%nat; [discriminate |].
  destruct inserted as [row|]; [|discriminate].
  injection Hsignup as <- _.
  assert (Auth.select_by_username (default "" n)
            {| Auth.sessions := <[token := Auth.u_id row]> (Auth.sessions st);
               Auth.users := Auth.users st ++ [row] |} <> []) as Hsel.
  { unfold Auth.select_by_username. simpl. rewrite filter_app.
    rewrite (filter_cons_True _ row) by (by apply Hrow).
    by destruct (filter _ (Auth.users st)). }
  destruct (Auth.select_by_username _ _); done.
Qed.

End Refusals.

(** The header of the scenario, and a bare token. *)
Lemma bearer_header_witness :
  Auth.bearer (Some ("Bearer " +:+ "session_k3x9")) = Some "session_k3x9" /\
  (Tokens.no_space "session_k3x9" = true /\
   Auth.bearer (Some "session_k3x9") = Some "session_k3x9").
Proof.
  split; [exact (proj1 bearer_header "session_k3x9") |].
  split; [reflexivity |].
  exact (proj1 (proj2 bearer_header) "session_k3x9" eq_refl).
Defined.

(** Rahul logs in and asks who he is. *)
Lemma login_then_me_witness :
  users_key Samples.fresh /\
  (forall x, x ∈ Auth.users Samples.fresh -> Auth.u_id x <> 0) /\
  let token := Tokens.generateToken Samples.random Samples.clock in
  exists st1 u,
    Auth.login (H := Scenario.plain) token (Some "rahul") (Some "secret") Samples.fresh
    = (st1, Auth.reply 200 (Auth.Session token u)) /\
    Auth.me (Some ("Bearer " +:+ token)) st1 = Auth.reply 200 (Auth.User u).
Proof.
  assert (Hkey : users_key Samples.fresh).
  { unfold users_key. simpl. apply NoDup_singleton. }
  assert (Hids : forall x, x ∈ Auth.users Samples.fresh -> Auth.u_id x <> 0).
  { intros x Hx. apply list_elem_of_singleton in Hx as ->. discriminate. }
  split; [exact Hkey |]. split; [exact Hids |].
  intros token. eexists _, _. split; [vm_compute; reflexivity |].
  eapply (login_then_me (H := Scenario.plain) Samples.random Samples.clock
            (Some "rahul") (Some "secret") Samples.fresh _ _ Hkey Hids).
  vm_compute. reflexivity.
Defined.

(** Another session is logged out; this one stays. *)
Lemma logout_spares_others_witness :
  let st := Auth.run (H := Scenario.plain) Scenario.logins Samples.fresh in
  Auth.bearer (Some "Bearer session_p0q1") <> Auth.bearer Scenario.authorization /\
  Auth.me Scenario.authorization (fst (Auth.logout (Some "Bearer session_p0q1") st))
  = Auth.me Scenario.authorization st /\
  snd (Auth.logout (Some "Bearer session_p0q1") st) = Auth.reply 200 Auth.Success /\
  Auth.users (fst (Auth.logout (Some "Bearer session_p0q1") st)) = Auth.users st.
Proof.
  intros st.
  assert (Hne : Auth.bearer (Some "Bearer session_p0q1")
                <> Auth.bearer Scenario.authorization) by discriminate.
  split; [exact Hne |].
  exact (logout_spares_others (Some "Bearer session_p0q1") Scenario.authorization st Hne).
Defined.

(** A wrong password. *)
Lemma login_refused_witness :
  Auth.code (snd (Auth.login (H := Scenario.plain) "session_k3x9"
                    (Some "rahul") (Some "guess") Samples.fresh)) <> 200 /\
  fst (Auth.login (H := Scenario.plain) "session_k3x9"
         (Some "rahul") (Some "guess") Samples.fresh) = Samples.fresh /\
  (JS.present (Some "rahul") = true -> JS.present (Some "guess") = true ->
   snd (Auth.login (H := Scenario.plain) "session_k3x9"
          (Some "rahul") (Some "guess") Samples.fresh)
   = Auth.reply 401 (Auth.Error "Invalid username or password")).
Proof.
  assert (Hcode : Auth.code (snd (Auth.login (H := Scenario.plain) "session_k3x9"
                                    (Some "rahul") (Some "guess") Samples.fresh)) <> 200)
    by (vm_compute; discriminate).
  split; [exact Hcode |].
  exact (login_refused (H := Scenario.plain) "session_k3x9" (Some "rahul") (Some "guess")
           Samples.fresh Hcode).
Defined.

(** Priya signs up, and someone tries her username. *)
Lemma signup_username_taken_witness :
  exists st1 u,
    Auth.signup "session_a1" (Some Samples.priya) (Some "priya") (Some "pw")
      (Some "Priya Singh") (Some "@priya_sports") Samples.fresh
    = (st1, Auth.reply 200 (Auth.Session "session_a1" u)) /\
    (forall row, Some Samples.priya = Some row -> Auth.u_username row = default "" (Some "priya")) /\
    forall token' inserted' password' name' contact',
      JS.present password' = true -> JS.present name' = true ->
      JS.present contact' = true ->
      Auth.signup token' inserted' (Some "priya") password' name' contact' st1
      = (st1, Auth.reply 400 (Auth.Error "Username already taken")).
Proof.
  assert (Hrow : forall row, Some Samples.priya = Some row ->
                             Auth.u_username row = default "" (Some "priya")).
  { intros row [= <-]. reflexivity. }
  eexists _, _. split; [vm_compute; reflexivity |]. split; [exact Hrow |].
  eapply (signup_username_taken "session_a1" (Some Samples.priya) (Some "priya") (Some "pw")
            (Some "Priya Singh") (Some "@priya_sports") Samples.fresh).
  - vm_compute. reflexivity.
  - exact Hrow.
Defined.
